(** * Auto-Catalog-Generator: the metadata inference of [auto_catalog.py]

    A shallow embedding of the heuristic extractors of [src/auto_catalog.py]
    ([_clean_name], [_front_text], [_ocr_first_pages], [_guess_title],
    [_find_people], [_find_year], [_find_publisher], [_guess_language],
    [parse_pdf], [build_catalog]) and the properties the specification
    states about them.

    Python [str] values are sequences of Unicode code points; they are
    modelled as [list N].  The regular expressions of the source are kept as
    syntax ([regex]) and run by a backtracking matcher that returns, for a
    start position, every way the pattern can match there in the priority
    order of Python's [re] (leftmost alternative first, greedy repetition
    longest first).  The first element of that list is the match [re] reports. *)

From Stdlib Require Import String Ascii.
From Stdlib Require Import NArith ZArith Bool Lia Arith PeanoNat List.
From Stdlib Require Import Sorted Permutation.
Import ListNotations.

Set Implicit Arguments.

Local Open Scope N_scope.

(** ** Strings *)

Definition pystr := list N.

(** An ASCII literal of the source as a code-point sequence. *)
Definition py (s : string) : pystr := map N_of_ascii (list_ascii_of_string s).

Definition ch (a : ascii) : N := N_of_ascii a.
Arguments ch a%_char.

Definition pystr_eqb (a b : pystr) : bool :=
  if list_eq_dec N.eq_dec a b then true else false.

Lemma pystr_eqb_eq (a b : pystr) : pystr_eqb a b = true <-> a = b.
Proof.
  unfold pystr_eqb. destruct (list_eq_dec N.eq_dec a b); split; congruence.
Qed.

Lemma pystr_eqb_refl (a : pystr) : pystr_eqb a a = true.
Proof. now apply pystr_eqb_eq. Qed.

(** [UNKNOWN = "Unknown"] *)
Definition UNKNOWN : pystr := py "Unknown".

(** Python's [x or UNKNOWN] on strings: the empty string is falsy. *)
Definition or_else (x d : pystr) : pystr :=
  match x with [] => d | _ :: _ => x end.

(** ** The interpreter's Unicode tables

    The character classes of [str.strip], [str.istitle], [str.isupper],
    [str.lower] and of the [re] module ([\s], [\d], [\w], [\b], [re.I]) are
    fixed below for ASCII.  Beyond ASCII they come from the Unicode character
    database of the interpreter, which is no part of the repository: it is a
    parameter of the development. *)

Record UnicodeData := {
  uni_space   : N -> bool;            (* Py_UNICODE_ISSPACE *)
  uni_decimal : N -> option N;        (* decimal digit value, category Nd *)
  uni_decimal_lt : forall c v, uni_decimal c = Some v -> v < 10;
  uni_alnum   : N -> bool;            (* Py_UNICODE_ISALNUM *)
  uni_isupper : N -> bool;
  uni_islower : N -> bool;
  uni_istitle : N -> bool;
  uni_lower   : N -> pystr;           (* full lower-case mapping *)
  uni_cased   : N -> bool;            (* property Cased *)
  uni_case_ignorable : N -> bool;     (* property Case_Ignorable *)
  uni_ieq     : N -> N -> bool        (* case-insensitive equality of [re.I] *)
}.

(** The database that knows no character beyond ASCII: used to run the
    functions on ASCII inputs. *)
Definition ascii_only : UnicodeData.
Proof.
  refine {| uni_space := fun _ => false;
            uni_decimal := fun _ => None;
            uni_alnum := fun _ => false;
            uni_isupper := fun _ => false;
            uni_islower := fun _ => false;
            uni_istitle := fun _ => false;
            uni_lower := fun c => [c];
            uni_cased := fun _ => false;
            uni_case_ignorable := fun _ => false;
            uni_ieq := fun _ _ => false |}.
  intros c v H; discriminate H.
Defined.

Definition between (lo hi c : N) : bool := (lo <=? c) && (c <=? hi).

(** ** The document as the collaborators hand it over

    The PDF library and the OCR tools are outside the repository.  What they
    return for one document is the input of the model: every call that can
    raise has a [result]. *)

Inductive result (A : Type) :=
| Ok (a : A)
| Raise.
Arguments Ok {A} a.
Arguments Raise {A}.

Definition bind {A B} (r : result A) (k : A -> result B) : result B :=
  match r with Ok a => k a | Raise => Raise end.

Notation "x <- r ;; k" := (bind r (fun x => k))
  (at level 61, r at next level, right associativity).

(** A Python dict with string keys; [None] values as PyMuPDF stores them. *)
Definition pydict := list (string * option pystr).

Fixpoint dict_get (k : string) (d : pydict) : option pystr :=
  match d with
  | [] => None
  | (k', v) :: rest => if String.eqb k k' then v else dict_get k rest
  end.

Record document := {
  doc_metadata : result (option pydict);   (* [doc.metadata] *)
  doc_pages : list (result pystr)          (* [doc.load_page(i).get_text("text")] *)
}.

Record pdf_file := {
  fitz_open : result document;             (* [fitz.open(pdf_path)] *)
  OCR_AVAILABLE : bool;
  ocr_pages : result (list pystr)          (* the OCR of the first 3 pages *)
}.

Section Extractors.

Variable U : UnicodeData.

Definition isspace (c : N) : bool :=
  if c <? 128 then between 9 13 c || between 28 32 c else uni_space U c.

Definition digit_value (c : N) : option N :=
  if c <? 128 then (if between 48 57 c then Some (c - 48) else None)
  else uni_decimal U c.

Definition isdecimal (c : N) : bool :=
  match digit_value c with Some _ => true | None => false end.

Definition ascii_upper (c : N) : bool := between 65 90 c.
Definition ascii_lower (c : N) : bool := between 97 122 c.

Definition isword (c : N) : bool :=
  if c <? 128
  then ascii_upper c || ascii_lower c || between 48 57 c || (c =? 95)
  else uni_alnum U c.

Definition ch_isupper (c : N) : bool :=
  if c <? 128 then ascii_upper c else uni_isupper U c.
Definition ch_islower (c : N) : bool :=
  if c <? 128 then ascii_lower c else uni_islower U c.
Definition ch_istitle (c : N) : bool :=
  if c <? 128 then false else uni_istitle U c.

Definition ascii_tolower (c : N) : N := if ascii_upper c then c + 32 else c.

(** [str.lower()].  Each character is replaced by its full lower-case
    mapping, except the capital sigma U+03A3, which the interpreter lowers by
    context: to the final sigma U+03C2 when it ends a word, to U+03C3
    otherwise.  It ends a word when the nearest character before it that is
    not case-ignorable exists and is cased, and the nearest such character
    after it, if any, is not cased. *)
Definition ch_lower (c : N) : pystr :=
  if c <? 128 then [ascii_tolower c] else uni_lower U c.

Definition is_cased (c : N) : bool :=
  if c <? 128 then ascii_upper c || ascii_lower c else uni_cased U c.

(** In ASCII the case-ignorable characters are ['], [.], [:], [^] and the
    grave accent. *)
Definition is_case_ignorable (c : N) : bool :=
  if c <? 128
  then (c =? 39) || (c =? 46) || (c =? 58) || (c =? 94) || (c =? 96)
  else uni_case_ignorable U c.

Fixpoint first_not_ignorable (s : pystr) : option N :=
  match s with
  | [] => None
  | c :: r => if is_case_ignorable c then first_not_ignorable r else Some c
  end.

(** [before] is the text before the sigma, nearest character first. *)
Definition final_sigma (before after : pystr) : bool :=
  match first_not_ignorable before with
  | Some c => is_cased c
  | None => false
  end
  && match first_not_ignorable after with
     | Some c => negb (is_cased c)
     | None => true
     end.

Fixpoint lower_loop (before s : pystr) : pystr :=
  match s with
  | [] => []
  | c :: rest =>
      (if c =? 931
       then [if final_sigma before rest then 962 else 963]
       else ch_lower c)
      ++ lower_loop (c :: before) rest
  end.
Definition lower (s : pystr) : pystr := lower_loop [] s.

(** A literal [p] of a pattern compiled with [re.I] against a character [c]. *)
Definition ci_eq (p c : N) : bool :=
  (p =? c) ||
  (if p <? 128
   then (ascii_upper p || ascii_lower p) &&
        (if c <? 128 then ascii_tolower p =? ascii_tolower c else uni_ieq U p c)
   else uni_ieq U p c).

(** [str.strip()] *)
Fixpoint lstrip (s : pystr) : pystr :=
  match s with
  | c :: r => if isspace c then lstrip r else s
  | [] => []
  end.
Definition rstrip (s : pystr) : pystr := rev (lstrip (rev s)).
Definition strip (s : pystr) : pystr := rstrip (lstrip s).

(** [str.istitle()] and [str.isupper()], as CPython's loops. *)
Fixpoint istitle_loop (s : pystr) (previous_is_cased cased : bool) : bool :=
  match s with
  | [] => cased
  | c :: r =>
      if ch_isupper c || ch_istitle c then
        if previous_is_cased then false else istitle_loop r true true
      else if ch_islower c then
        if previous_is_cased then istitle_loop r true true else false
      else istitle_loop r false cased
  end.
Definition istitle (s : pystr) : bool := istitle_loop s false false.

Fixpoint isupper_loop (s : pystr) (cased : bool) : bool :=
  match s with
  | [] => cased
  | c :: r =>
      if ch_islower c || ch_istitle c then false
      else isupper_loop r (cased || ch_isupper c)
  end.
Definition isupper (s : pystr) : bool := isupper_loop s false.

(** [str.splitlines()]: the line boundaries of Python's documentation;
    [\r\n] counts as one boundary and no empty last line is produced. *)
Definition is_linebreak (c : N) : bool :=
  between 10 13 c || between 28 30 c || (c =? 133) || (c =? 8232) || (c =? 8233).

Fixpoint splitlines_loop (s cur : pystr) (after_cr : bool) : list pystr :=
  match s with
  | [] => match cur with [] => [] | _ => [rev cur] end
  | c :: r =>
      if after_cr && (c =? 10) then splitlines_loop r cur false
      else if is_linebreak c then rev cur :: splitlines_loop r [] (c =? 13)
      else splitlines_loop r (c :: cur) false
  end.
Definition splitlines (s : pystr) : list pystr := splitlines_loop s [] false.

(** [sep.join(parts)] *)
Fixpoint join (sep : pystr) (parts : list pystr) : pystr :=
  match parts with
  | [] => []
  | [p] => p
  | p :: rest => p ++ sep ++ join sep rest
  end.

(** ** Regular expressions

    The fragment of Python's [re] syntax the source uses.  Every repetition
    in the source ([\s*], [\s{2,}], [.+], [.{0,60}], [\d{2}], [\.?], [(?:s)?],
    [[^\n,]+], ...) is over a single-character matcher, so [Rep] takes an
    [atom]. *)

Inductive citem :=
| CChar (c : N)
| CRange (lo hi : N)
| CWord.

Inductive atom :=
| Lit (c : N)                    (* a literal character *)
| Dot                            (* [.] *)
| InSet (items : list citem)     (* [[...]] *)
| NotInSet (items : list citem)  (* [[^...]] *)
| Digit                          (* [\d] *)
| Space.                         (* [\s] *)

Inductive regex :=
| Eps
| One (a : atom)
| Rep (a : atom) (lo : nat) (hi : option nat)   (* greedy [a{lo,hi}] *)
| Seq (r1 r2 : regex)
| Alt (r1 r2 : regex)
| Group (i : nat) (r : regex)                   (* capturing group [i] *)
| WordBoundary                                  (* [\b] *)
| StartAnchor                                   (* [^] *)
| EndAnchor                                     (* [$] without re.M *)
| NotBehind (a : atom)                          (* [(?<!a)] *)
| NotAhead (a : atom).                          (* [(?!a)] *)

Record flags := { ignorecase : bool; dotall : bool }.

Definition no_flags := {| ignorecase := false; dotall := false |}.
Definition re_I := {| ignorecase := true; dotall := false |}.
Definition re_I_S := {| ignorecase := true; dotall := true |}.

Definition lit_ok (fl : flags) (p c : N) : bool :=
  if ignorecase fl then ci_eq p c else p =? c.

Definition citem_ok (fl : flags) (it : citem) (c : N) : bool :=
  match it with
  | CChar p => lit_ok fl p c
  | CRange lo hi => between lo hi c
  | CWord => isword c
  end.

Definition atom_ok (fl : flags) (a : atom) (c : N) : bool :=
  match a with
  | Lit p => lit_ok fl p c
  | Dot => dotall fl || negb (c =? 10)
  | InSet items => existsb (fun it => citem_ok fl it c) items
  | NotInSet items => negb (existsb (fun it => citem_ok fl it c) items)
  | Digit => isdecimal c
  | Space => isspace c
  end.

(** The state of a match attempt: the text before the cursor (nearest
    character first), the text after it, and the groups captured so far. *)
Record mstate := {
  m_before : pystr;
  m_after  : pystr;
  m_groups : list (nat * pystr)
}.

Definition consumed (s s' : mstate) : pystr :=
  firstn (length (m_after s) - length (m_after s')) (m_after s).

(** Greedy repetition of a one-character matcher: the longest run first. *)
Fixpoint rep (ok : N -> bool) (lo : nat) (hi : option nat)
         (bef aft : pystr) (g : list (nat * pystr)) : list mstate :=
  let stop := match lo with
              | O => [{| m_before := bef; m_after := aft; m_groups := g |}]
              | S _ => []
              end in
  match hi with
  | Some O => stop
  | _ =>
      match aft with
      | c :: rest =>
          if ok c
          then rep ok (pred lo) (option_map pred hi) (c :: bef) rest g ++ stop
          else stop
      | [] => stop
      end
  end.

Definition word_before (s : mstate) : bool :=
  match m_before s with c :: _ => isword c | [] => false end.
Definition word_after (s : mstate) : bool :=
  match m_after s with c :: _ => isword c | [] => false end.

Definition guard (b : bool) (s : mstate) : list mstate := if b then [s] else [].

Fixpoint run (fl : flags) (r : regex) (s : mstate) : list mstate :=
  match r with
  | Eps => [s]
  | One a =>
      match m_after s with
      | c :: rest =>
          guard (atom_ok fl a c)
                {| m_before := c :: m_before s; m_after := rest; m_groups := m_groups s |}
      | [] => []
      end
  | Rep a lo hi => rep (atom_ok fl a) lo hi (m_before s) (m_after s) (m_groups s)
  | Seq r1 r2 => flat_map (run fl r2) (run fl r1 s)
  | Alt r1 r2 => run fl r1 s ++ run fl r2 s
  | Group i r1 =>
      map (fun s' => {| m_before := m_before s'; m_after := m_after s';
                        m_groups := (i, consumed s s') :: m_groups s' |})
          (run fl r1 s)
  | WordBoundary => guard (xorb (word_before s) (word_after s)) s
  | StartAnchor => guard (match m_before s with [] => true | _ => false end) s
  | EndAnchor =>
      guard (match m_after s with [] => true | [10] => true | _ => false end) s
  | NotBehind a =>
      guard (match m_before s with c :: _ => negb (atom_ok fl a c) | [] => true end) s
  | NotAhead a =>
      guard (match m_after s with c :: _ => negb (atom_ok fl a c) | [] => true end) s
  end.

(** A match object: where it starts, what it spans and its groups. *)
Record rmatch := {
  mt_before : pystr;                (* the text before the match, reversed *)
  mt_text   : pystr;                (* [m.group(0)] *)
  mt_after  : pystr;                (* the text after the match *)
  mt_groups : list (nat * pystr)
}.

Fixpoint assoc (i : nat) (g : list (nat * pystr)) : option pystr :=
  match g with
  | [] => None
  | (j, v) :: rest => if Nat.eqb i j then Some v else assoc i rest
  end.

(** [m.group(i)] for [i >= 1]; a group that took no part in the match is
    [None]. *)
Definition group (m : rmatch) (i : nat) : option pystr := assoc i (mt_groups m).

Definition start_state (bef aft : pystr) : mstate :=
  {| m_before := bef; m_after := aft; m_groups := [] |}.

Definition match_at (fl : flags) (r : regex) (bef aft : pystr) : option rmatch :=
  match run fl r (start_state bef aft) with
  | s' :: _ =>
      Some {| mt_before := bef;
              mt_text := consumed (start_state bef aft) s';
              mt_after := m_after s';
              mt_groups := m_groups s' |}
  | [] => None
  end.

(** [re.search]: the leftmost position with a match. *)
Fixpoint search_from (fl : flags) (r : regex) (bef aft : pystr) : option rmatch :=
  match match_at fl r bef aft with
  | Some m => Some m
  | None =>
      match aft with
      | c :: rest => search_from fl r (c :: bef) rest
      | [] => None
      end
  end.
Definition re_search (fl : flags) (r : regex) (text : pystr) : option rmatch :=
  search_from fl r [] text.

(** [re.match]: a match at the start of the text. *)
Definition re_match (fl : flags) (r : regex) (text : pystr) : option rmatch :=
  match_at fl r [] text.

(** [re.sub(r, repl, text)] for a literal replacement: the matches are taken
    left to right, each search resuming where the previous match ended; an
    empty match is replaced and the next character copied. *)
Fixpoint sub_loop (fuel : nat) (fl : flags) (r : regex) (repl bef aft : pystr) : pystr :=
  match fuel with
  | O => aft
  | S f =>
      match match_at fl r bef aft with
      | Some m =>
          match mt_text m with
          | _ :: _ => repl ++ sub_loop f fl r repl (rev (mt_text m) ++ bef) (mt_after m)
          | [] =>
              match aft with
              | c :: rest => repl ++ c :: sub_loop f fl r repl (c :: bef) rest
              | [] => repl
              end
          end
      | None =>
          match aft with
          | c :: rest => c :: sub_loop f fl r repl (c :: bef) rest
          | [] => []
          end
      end
  end.
Definition re_sub (fl : flags) (r : regex) (repl text : pystr) : pystr :=
  sub_loop (S (length text)) fl r repl [] text.

(** [re.split(r, text)[0]]: the text before the first match. *)
Definition split_first (fl : flags) (r : regex) (text : pystr) : pystr :=
  match re_search fl r text with
  | Some m => rev (mt_before m)
  | None => text
  end.

(** Helpers to write patterns as the source does. *)
Fixpoint seq (rs : list regex) : regex :=
  match rs with
  | [] => Eps
  | [r] => r
  | r :: rest => Seq r (seq rest)
  end.
Fixpoint alt (rs : list regex) : regex :=
  match rs with
  | [] => Eps
  | [r] => r
  | r :: rest => Alt r (alt rest)
  end.
Definition word (s : string) : regex := seq (map (fun c => One (Lit c)) (py s)).
Definition star (a : atom) : regex := Rep a 0 None.
Definition plus (a : atom) : regex := Rep a 1 None.
Definition opt (a : atom) : regex := Rep a 0 (Some 1%nat).


(** ** NameNormalizer: [_clean_name] *)

(** [[,;]\s*$] *)
Definition trailing_sep_pat : regex :=
  seq [One (InSet [CChar (ch ","); CChar (ch ";")]); star Space; EndAnchor].

(** [\b(Dr\.?|Prof\.?|Professor|Ph\.?D\.?|M\.?D\.?)\b\.?] *)
Definition honorific_pat : regex :=
  seq [WordBoundary;
       Group 1 (alt [seq [word "Dr"; opt (Lit (ch "."))];
                     seq [word "Prof"; opt (Lit (ch "."))];
                     word "Professor";
                     seq [word "Ph"; opt (Lit (ch ".")); word "D"; opt (Lit (ch "."))];
                     seq [word "M"; opt (Lit (ch ".")); word "D"; opt (Lit (ch "."))]]);
       WordBoundary;
       opt (Lit (ch "."))].

(** [\s{2,}] *)
Definition spaces_pat : regex := Rep Space 2 None.

Definition _clean_name (s : pystr) : pystr :=
  let s := re_sub no_flags trailing_sep_pat [] (strip s) in
  let s := re_sub re_I honorific_pat [] s in
  or_else (strip (re_sub no_flags spaces_pat (py " ") s)) UNKNOWN.

(** ** TitleGuesser: [_guess_title] *)

(** [\b(by|edited|editor|copyright|published|publisher|isbn|issn)\b] *)
Definition banned_pat : regex :=
  seq [WordBoundary;
       Group 1 (alt [word "by"; word "edited"; word "editor"; word "copyright";
                     word "published"; word "publisher"; word "isbn"; word "issn"]);
       WordBoundary].

(** [^[\w :;,'&\-\(\)\.\!\?]+$] *)
Definition title_chars_pat : regex :=
  seq [StartAnchor;
       plus (InSet [CWord; CChar (ch " "); CChar (ch ":"); CChar (ch ";");
                    CChar (ch ","); CChar (ch "'"); CChar (ch "&"); CChar (ch "-");
                    CChar (ch "("); CChar (ch ")"); CChar (ch "."); CChar (ch "!");
                    CChar (ch "?")]);
       EndAnchor].

Definition is_some {A} (o : option A) : bool :=
  match o with Some _ => true | None => false end.

Definition title_score (t : pystr) : Z :=
  let len := length t in
  let score := ((if istitle t then 2 else 0)
                + (if isupper t && (len <=? 80)%nat then 1 else 0))%Z in
  let score := (score + (if (10 <=? len)%nat && (len <=? 120)%nat then 1 else 0))%Z in
  let score := (score + (if is_some (re_match no_flags title_chars_pat t) then 1 else 0))%Z in
  if (140 <? len)%nat then (score - 1)%Z else score.

(** The loop over [lines[:25]] that fills [cand]. *)
Fixpoint title_candidates (lines : list pystr) : list (Z * pystr) :=
  match lines with
  | [] => []
  | ln :: rest =>
      let t := strip ln in
      if (length t <? 4)%nat then title_candidates rest
      else if is_some (re_search re_I banned_pat t) then title_candidates rest
      else if (2 <=? title_score t)%Z then (title_score t, t) :: title_candidates rest
      else title_candidates rest
  end.

(** [key=lambda x: (-x[0], len(x[1]))], compared as Python compares tuples. *)
Definition title_key_le (a b : Z * pystr) : bool :=
  ((- fst a <? - fst b)%Z
   || ((- fst a =? - fst b)%Z && (length (snd a) <=? length (snd b))%nat)).

(** [sorted] is stable: an element goes before the first one not smaller. *)
Fixpoint insert_sorted {A} (le : A -> A -> bool) (x : A) (l : list A) : list A :=
  match l with
  | [] => [x]
  | y :: l' => if le x y then x :: l else y :: insert_sorted le x l'
  end.
Definition sorted {A} (le : A -> A -> bool) (l : list A) : list A :=
  fold_right (insert_sorted le) [] l.

Definition _guess_title (lines : list pystr) : pystr :=
  match sorted title_key_le (title_candidates (firstn 25 lines)) with
  | (_, t) :: _ => t
  | [] => UNKNOWN
  end.

(** ** PersonExtractor: [_find_people] *)

Definition name_run : regex := plus (NotInSet [CChar 10; CChar (ch ",")]).

(** [\b(?:By|Written by|Author(?:s)?:)\s*([^\n,]+)] *)
Definition author_pat : regex :=
  seq [WordBoundary;
       alt [word "By"; word "Written by";
            seq [word "Author"; opt (Lit (ch "s")); One (Lit (ch ":"))]];
       star Space;
       Group 1 name_run].

(** [\b(?:Edited by|Editor(?:s)?:)\s*([^\n,]+)] *)
Definition editor_pat : regex :=
  seq [WordBoundary;
       alt [word "Edited by";
            seq [word "Editor"; opt (Lit (ch "s")); One (Lit (ch ":"))]];
       star Space;
       Group 1 name_run].

(** [m.group(i)], the empty string standing for Python's [None] where a
    string is expected next ([_clean_name] reads [s or ""]). *)
Definition group_str (m : rmatch) (i : nat) : pystr :=
  match group m i with Some g => g | None => [] end.

Definition _find_people (text : pystr) (meta_author : option pystr) : pystr * pystr :=
  let author :=
    match re_search re_I author_pat text with
    | Some m => _clean_name (group_str m 1)
    | None =>
        match meta_author with
        | Some (c :: a) =>
            if is_some (re_search re_I (word "unknown") (c :: a)) then UNKNOWN
            else _clean_name (c :: a)
        | _ => UNKNOWN
        end
    end in
  let editor :=
    match re_search re_I editor_pat text with
    | Some m => _clean_name (group_str m 1)
    | None => UNKNOWN
    end in
  if negb (pystr_eqb author UNKNOWN) && pystr_eqb (lower editor) (lower author)
  then (author, UNKNOWN) else (author, editor).

(** ** YearExtractor: [_find_year] *)

Definition digit_range (lo hi : ascii) : atom := InSet [CRange (ch lo) (ch hi)].

(** [(?<!\d)(1[5-9]\d{2}|20[0-2]\d|203[0-5])(?!\d)] *)
Definition year_pat : regex :=
  seq [NotBehind Digit;
       Group 1 (alt [seq [word "1"; One (digit_range "5" "9"); Rep Digit 2 (Some 2%nat)];
                     seq [word "20"; One (digit_range "0" "2"); One Digit];
                     seq [word "203"; One (digit_range "0" "5")]]);
       NotAhead Digit].

Definition literal (s : pystr) : regex := seq (map (fun c => One (Lit c)) s).

(** The marker terms, in the order of the source; the first is the
    copyright sign U+00A9. *)
Definition year_terms : list pystr :=
  [[169]; py "Copyright"; py "First published"; py "Published"; py "Reprinted"].

(** [term + r".{0,60}" + year_pat] *)
Definition term_pat (term : pystr) : regex :=
  seq [literal term; Rep Dot 0 (Some 60%nat); year_pat].

Fixpoint year_near_terms (terms : list pystr) (text : pystr) : option pystr :=
  match terms with
  | [] => None
  | term :: rest =>
      match re_search re_I_S (term_pat term) text with
      | Some m =>
          match re_search no_flags year_pat (mt_text m) with
          | Some y => Some (mt_text y)
          | None => year_near_terms rest text
          end
      | None => year_near_terms rest text
      end
  end.

Definition _find_year (text : pystr) : pystr :=
  match year_near_terms year_terms text with
  | Some y => y
  | None =>
      match re_search no_flags year_pat text with
      | Some m => group_str m 1
      | None => UNKNOWN
      end
  end.

(** ** PublisherExtractor: [_find_publisher] *)

(** [\b(Published by|Publisher|Imprint|Printed by)\s*[:\-]\s*(.+)] *)
Definition publisher_pat : regex :=
  seq [WordBoundary;
       Group 1 (alt [word "Published by"; word "Publisher"; word "Imprint";
                     word "Printed by"]);
       star Space;
       One (InSet [CChar (ch ":"); CChar (ch "-")]);
       star Space;
       Group 2 (plus Dot)].

(** [[;|•]|Tel:|Phone:|Fax:|Email:|www\.]; the bullet is U+2022. *)
Definition contact_pat : regex :=
  alt [One (InSet [CChar (ch ";"); CChar (ch "|"); CChar 8226]);
       word "Tel:"; word "Phone:"; word "Fax:"; word "Email:"; word "www."].

(** [\b(Press|Publications|Publishers|University|House|Books)\b] *)
Definition imprint_word_pat : regex :=
  seq [WordBoundary;
       Group 1 (alt [word "Press"; word "Publications"; word "Publishers";
                     word "University"; word "House"; word "Books"]);
       WordBoundary].

Definition len_2_120 (s : pystr) : bool :=
  (2 <=? length s)%nat && (length s <=? 120)%nat.

(** What the first loop computes from a matching line. *)
Definition publisher_candidate (m : rmatch) : pystr :=
  let cand := strip (split_first no_flags contact_pat (strip (group_str m 2))) in
  re_sub no_flags spaces_pat (py " ") cand.

Fixpoint labelled_publisher (lines : list pystr) : option pystr :=
  match lines with
  | [] => None
  | ln :: rest =>
      match re_search re_I publisher_pat ln with
      | Some m =>
          if len_2_120 (publisher_candidate m) then Some (publisher_candidate m)
          else labelled_publisher rest
      | None => labelled_publisher rest
      end
  end.

Fixpoint plausible_publisher (lines : list pystr) : option pystr :=
  match lines with
  | [] => None
  | ln :: rest =>
      if is_some (re_search re_I imprint_word_pat ln) && len_2_120 (strip ln)
      then Some (strip ln)
      else plausible_publisher rest
  end.

Definition _find_publisher (text : pystr) : pystr :=
  match labelled_publisher (splitlines text) with
  | Some p => p
  | None =>
      match plausible_publisher (firstn 80 (splitlines text)) with
      | Some p => p
      | None => UNKNOWN
      end
  end.


(** ** LanguageDetector: [_guess_language] *)

Inductive script :=
| Devanagari | Bengali | Gurmukhi | Gujarati | Oriya | Tamil | Telugu
| Kannada | Malayalam | Latin | Arabic | Cyrillic.

Definition script_eqb (a b : script) : bool :=
  match a, b with
  | Devanagari, Devanagari | Bengali, Bengali | Gurmukhi, Gurmukhi
  | Gujarati, Gujarati | Oriya, Oriya | Tamil, Tamil | Telugu, Telugu
  | Kannada, Kannada | Malayalam, Malayalam | Latin, Latin
  | Arabic, Arabic | Cyrillic, Cyrillic => true
  | _, _ => false
  end.

(** The keys of [counts], in the insertion order a Python dict keeps. *)
Definition script_order : list script :=
  [Devanagari; Bengali; Gurmukhi; Gujarati; Oriya; Tamil; Telugu; Kannada;
   Malayalam; Latin; Arabic; Cyrillic].

Definition counts_t := list (script * N).

Definition counts_init : counts_t := map (fun k => (k, 0)) script_order.

(** [counts[k] += 1]: the entry is updated in place, the order is kept. *)
Fixpoint incr (k : script) (counts : counts_t) : counts_t :=
  match counts with
  | [] => []
  | (k', n) :: rest =>
      if script_eqb k k' then (k', n + 1) :: rest else (k', n) :: incr k rest
  end.

(** The [if]/[elif] chain over [cp = ord(ch)]. *)
Definition classify (cp : N) : option script :=
  if between 0x0900 0x097F cp then Some Devanagari
  else if between 0x0980 0x09FF cp then Some Bengali
  else if between 0x0A00 0x0A7F cp then Some Gurmukhi
  else if between 0x0A80 0x0AFF cp then Some Gujarati
  else if between 0x0B00 0x0B7F cp then Some Oriya
  else if between 0x0B80 0x0BFF cp then Some Tamil
  else if between 0x0C00 0x0C7F cp then Some Telugu
  else if between 0x0C80 0x0CFF cp then Some Kannada
  else if between 0x0D00 0x0D7F cp then Some Malayalam
  else if between 0x0400 0x04FF cp then Some Cyrillic
  else if between 0x0600 0x06FF cp then Some Arabic
  else if between 0x0000 0x024F cp then Some Latin
  else None.

Fixpoint count_scripts (sample : pystr) (counts : counts_t) : counts_t :=
  match sample with
  | [] => counts
  | c :: rest =>
      count_scripts rest
        (match classify c with Some k => incr k counts | None => counts end)
  end.

(** [max(items, key=lambda kv: kv[1])]: a later item replaces the current
    maximum only when its key is strictly greater. *)
Fixpoint max_item (best : script * N) (items : counts_t) : script * N :=
  match items with
  | [] => best
  | kv :: rest => max_item (if snd best <? snd kv then kv else best) rest
  end.

Definition language_label (k : script) : pystr :=
  match k with
  | Devanagari => py "Hindi" | Bengali => py "Bengali" | Gurmukhi => py "Punjabi"
  | Gujarati => py "Gujarati" | Oriya => py "Odia" | Tamil => py "Tamil"
  | Telugu => py "Telugu" | Kannada => py "Kannada" | Malayalam => py "Malayalam"
  | Arabic => py "Arabic" | Cyrillic => py "Russian" | Latin => py "English"
  end.

Definition script_counts (sample : pystr) : counts_t :=
  count_scripts (firstn 5000 sample) counts_init.

Definition _guess_language (sample : pystr) : pystr :=
  if (length (strip sample) <? 40)%nat then UNKNOWN
  else
    match script_counts sample with
    | [] => UNKNOWN
    | kv :: rest =>
        let (script, n) := max_item kv rest in
        if n <? 20 then UNKNOWN else language_label script
    end.

(** ** InferenceEngine: [parse_pdf] *)

(** [len(doc)] and [doc.page_count] *)
Definition page_count (doc : document) : nat := length (doc_pages doc).

(** The texts of the pages that load; a page that raises is skipped. *)
Fixpoint loaded_texts (pages : list (result pystr)) : list pystr :=
  match pages with
  | [] => []
  | Ok t :: rest => t :: loaded_texts rest
  | Raise :: rest => loaded_texts rest
  end.

Definition _front_text (doc : document) (pages : nat) : pystr :=
  strip (join [10] (loaded_texts (firstn (Nat.min pages (page_count doc)) (doc_pages doc)))).

Definition _ocr_first_pages (pdf : pdf_file) : pystr :=
  if negb (OCR_AVAILABLE pdf) then []
  else match ocr_pages pdf with
       | Ok txt => join [10] txt
       | Raise => []
       end.

(** [str(n)] for a non-negative integer. *)
Fixpoint decimal_digits (fuel : nat) (n : N) (acc : pystr) : pystr :=
  match fuel with
  | O => acc
  | S f =>
      let acc' := (48 + n mod 10) :: acc in
      if n / 10 =? 0 then acc' else decimal_digits f (n / 10) acc'
  end.
Definition str_of_nat (n : nat) : pystr :=
  decimal_digits (S n) (N.of_nat n) [].

Definition record := list (string * pystr).

Fixpoint field (k : string) (r : record) : option pystr :=
  match r with
  | [] => None
  | (k', v) :: rest => if String.eqb k k' then Some v else field k rest
  end.

Definition unknown_record : record :=
  [("Book Title"%string, UNKNOWN); ("Author"%string, UNKNOWN);
   ("Editor"%string, UNKNOWN); ("Year of Publishing"%string, UNKNOWN);
   ("Publisher"%string, UNKNOWN); ("Language"%string, UNKNOWN);
   ("Number of Pages"%string, UNKNOWN); ("Format"%string, py "PDF")].

Definition placeholder_title (title : pystr) : bool :=
  match title with [] => true | _ => false end
  || pystr_eqb (lower title) [] || pystr_eqb (lower title) (py "untitled")
  || pystr_eqb (lower title) (py "unknown").

(** The body of the [try] block. *)
Definition parse_pdf_try (pdf : pdf_file) (use_ocr : bool) : result record :=
  doc <- fitz_open pdf ;;
  md <- doc_metadata doc ;;
  let meta := match md with Some d => d | None => [] end in
  let text := _front_text doc 8 in
  let text :=
    if use_ocr && (length text <? 40)%nat
    then (let ocr := _ocr_first_pages pdf in
          if (length text <? length ocr)%nat then ocr else text)
    else text in
  let title := strip (match dict_get "title" meta with Some t => t | None => [] end) in
  let title :=
    if placeholder_title title
    then or_else (_guess_title (filter (fun ln => negb (pystr_eqb (strip ln) []))
                                       (splitlines text))) UNKNOWN
    else title in
  let (author, editor) := _find_people text (dict_get "author" meta) in
  let year := _find_year text in
  let publisher := _find_publisher text in
  let lang_text :=
    if (page_count doc <=? 8)%nat then text
    else _front_text doc (Nat.min 12 (page_count doc)) in
  let language := _guess_language lang_text in
  Ok [("Book Title"%string, or_else title UNKNOWN);
      ("Author"%string, or_else author UNKNOWN);
      ("Editor"%string, or_else editor UNKNOWN);
      ("Year of Publishing"%string, or_else year UNKNOWN);
      ("Publisher"%string, or_else publisher UNKNOWN);
      ("Language"%string, or_else language UNKNOWN);
      ("Number of Pages"%string,
        match page_count doc with O => UNKNOWN | n => str_of_nat n end);
      ("Format"%string, py "PDF")].

(** [try: ... except Exception: return {...}] *)
Definition parse_pdf (pdf : pdf_file) (use_ocr : bool) : record :=
  match parse_pdf_try pdf use_ocr with
  | Ok r => r
  | Raise => unknown_record
  end.

(** The same call with the flow of exceptions kept: an exception no handler
    catches leaves the function.  [try: body except Exception: handler] runs
    the handler when the body raises, and what the handler raises
    propagates. *)
Definition try_except {A} (body handler : result A) : result A :=
  match body with
  | Ok a => Ok a
  | Raise => handler
  end.

Definition parse_pdf_call (pdf : pdf_file) (use_ocr : bool) : result record :=
  try_except (parse_pdf_try pdf use_ocr) (Ok unknown_record).

End Extractors.

(** ** CatalogBuilder: [build_catalog] *)

(** A path yielded by [input_dir.rglob("*.pdf")]: its [name], the string
    [str(p.resolve())] and the file behind it. *)
Record pdf_path := {
  path_name : pystr;
  path_resolved : pystr;
  path_file : pdf_file
}.

(** [a <= b] on [str]: lexicographic on the code points. *)
Fixpoint pystr_leb (a b : pystr) : bool :=
  match a, b with
  | [], _ => true
  | _ :: _, [] => false
  | x :: a', y :: b' =>
      if x <? y then true else if y <? x then false else pystr_leb a' b'
  end.

(** [rec[k] = v]: an existing key keeps its place, a new one goes last. *)
Fixpoint record_set (k : string) (v : pystr) (r : record) : record :=
  match r with
  | [] => [(k, v)]
  | (k', v') :: rest =>
      if String.eqb k k' then (k', v) :: rest else (k', v') :: record_set k v rest
  end.

Definition columns : list string :=
  ["Book Title"; "Author"; "Editor"; "Year of Publishing"; "Publisher";
   "Language"; "Number of Pages"; "Format"; "Source File"]%string.

(** [pd.DataFrame(rows, columns=cols)]: one row per dict, the listed columns
    in the listed order; a key a dict lacks gives an empty cell. *)
Definition DataFrame (rows : list record) (cols : list string)
  : list (list (option pystr)) :=
  map (fun r => map (fun c => field c r) cols) rows.

Section Catalog.
Variable U : UnicodeData.

(** [key=lambda p: p.name.lower()] *)
Definition name_key_le (p q : pdf_path) : bool :=
  pystr_leb (lower U (path_name p)) (lower U (path_name q)).

(** The data frame [build_catalog] builds from the paths found, writes to
    the workbook and returns. *)
Definition build_catalog (found : list pdf_path) (use_ocr : bool)
  : list (list (option pystr)) :=
  let pdfs := sorted name_key_le found in
  let rows :=
    map (fun p => record_set "Source File" (path_resolved p)
                    (parse_pdf U (path_file p) use_ocr)) pdfs in
  DataFrame rows columns.


End Catalog.


(** * Properties *)

Definition field_names : list string :=
  ["Book Title"; "Author"; "Editor"; "Year of Publishing"; "Publisher";
   "Language"; "Number of Pages"; "Format"]%string.

(** ** The record of [parse_pdf] *)

Lemma or_else_nonempty (x d : pystr) : d <> [] -> or_else x d <> [].
Proof. destruct x; simpl; [auto | discriminate]. Qed.

Lemma UNKNOWN_nonempty : UNKNOWN <> [].
Proof. discriminate. Qed.

Lemma decimal_digits_nonempty (fuel : nat) :
  forall n acc, acc <> [] -> decimal_digits fuel n acc <> [].
Proof.
  induction fuel as [|f IH]; intros n acc Hacc; simpl; [exact Hacc|].
  destruct (n / 10 =? 0); [discriminate | apply IH; discriminate].
Qed.

Lemma str_of_nat_nonempty (n : nat) : str_of_nat n <> [].
Proof.
  unfold str_of_nat. simpl.
  destruct (N.of_nat n / 10 =? 0); [discriminate|].
  apply decimal_digits_nonempty; discriminate.
Qed.

Definition populated (r : record) : Prop :=
  forall k, In k field_names ->
    exists v, field k r = Some v /\ v <> [] /\ (k = "Format"%string -> v = py "PDF").

Lemma populated_intro (v1 v2 v3 v4 v5 v6 v7 : pystr) :
  v1 <> [] -> v2 <> [] -> v3 <> [] -> v4 <> [] -> v5 <> [] -> v6 <> [] -> v7 <> [] ->
  populated [("Book Title"%string, v1); ("Author"%string, v2); ("Editor"%string, v3);
             ("Year of Publishing"%string, v4); ("Publisher"%string, v5);
             ("Language"%string, v6); ("Number of Pages"%string, v7);
             ("Format"%string, py "PDF")].
Proof.
  intros H1 H2 H3 H4 H5 H6 H7 k Hk.
  simpl in Hk.
  repeat (destruct Hk as [<- | Hk];
          [ eexists; split; [reflexivity | split; [assumption || discriminate | ]];
            intros E; (discriminate E || reflexivity) | ]).
  contradiction.
Qed.

Lemma unknown_record_populated : populated unknown_record.
Proof. apply populated_intro; discriminate. Qed.

(** C1.  Whatever the document, every one of the eight fields of the record
    [parse_pdf] returns is present and bound to a non-empty string, and
    [Format] is the constant ["PDF"]. *)
Theorem parse_pdf_fields_populated (U : UnicodeData) (pdf : pdf_file) (use_ocr : bool) :
  forall k, In k field_names ->
    exists v, field k (parse_pdf U pdf use_ocr) = Some v /\ v <> []
              /\ (k = "Format"%string -> v = py "PDF").
Proof.
  change (populated (parse_pdf U pdf use_ocr)).
  unfold parse_pdf, parse_pdf_try, bind.
  destruct (fitz_open pdf) as [doc|]; [|apply unknown_record_populated].
  destruct (doc_metadata doc) as [md|]; [|apply unknown_record_populated].
  cbv zeta.
  match goal with |- context [_find_people ?u ?t ?a] =>
    destruct (_find_people u t a) as [author editor] end.
  cbv beta iota.
  apply populated_intro; try (apply or_else_nonempty; exact UNKNOWN_nonempty).
  destruct (page_count doc); [exact UNKNOWN_nonempty | apply str_of_nat_nonempty].
Qed.

(** C2.  No failure leaves [parse_pdf].  Opening the file, reading its
    metadata, loading each page and running the OCR may each raise; whatever
    they do, the call returns a record and raises nothing.  The body of the
    [try] block raises exactly when opening the file or reading the metadata
    does (a page that fails to load, or an OCR run that fails, is absorbed
    before), and then the record returned is the failure record: every field
    ["Unknown"], except [Format], which is ["PDF"]; nothing of what could
    still be read is kept. *)
Theorem parse_pdf_contains_failures (U : UnicodeData) (pdf : pdf_file) (use_ocr : bool) :
  parse_pdf_call U pdf use_ocr = Ok (parse_pdf U pdf use_ocr)
  /\ (parse_pdf_try U pdf use_ocr = Raise
      <-> fitz_open pdf = Raise
          \/ exists doc, fitz_open pdf = Ok doc /\ doc_metadata doc = Raise)
  /\ (parse_pdf_try U pdf use_ocr = Raise ->
      parse_pdf_call U pdf use_ocr = Ok unknown_record
      /\ forall k, In k field_names ->
           field k (parse_pdf U pdf use_ocr)
           = Some (if String.eqb k "Format" then py "PDF" else UNKNOWN)).
Proof.
  split; [|split].
  - unfold parse_pdf_call, parse_pdf, try_except.
    destruct (parse_pdf_try U pdf use_ocr); reflexivity.
  - unfold parse_pdf_try, bind.
    destruct (fitz_open pdf) as [doc|]; [|split; auto].
    destruct (doc_metadata doc) as [md|] eqn:Em.
    + cbv zeta.
      match goal with |- context [_find_people ?u ?t ?a] =>
        destruct (_find_people u t a) as [author editor] end.
      split; [discriminate|].
      intros [H | (doc' & H & Hm)]; [discriminate H|].
      injection H as <-. rewrite Em in Hm. discriminate Hm.
    + split; [|reflexivity]. intros _. right. exists doc. split; [reflexivity | exact Em].
  - intros H. unfold parse_pdf_call, parse_pdf, try_except. rewrite H.
    split; [reflexivity|].
    intros k Hk. simpl in Hk.
    repeat (destruct Hk as [<- | Hk]; [reflexivity|]). contradiction.
Qed.

Definition unreadable_pdf : pdf_file :=
  {| fitz_open := Raise; OCR_AVAILABLE := false; ocr_pages := Raise |}.

Definition broken_metadata_pdf : pdf_file :=
  {| fitz_open := Ok {| doc_metadata := Raise;
                        doc_pages := [Ok (py "Copyright 1999 Acme Books")] |};
     OCR_AVAILABLE := true; ocr_pages := Ok [] |}.

Lemma parse_pdf_contains_failures_witness :
  parse_pdf_try ascii_only broken_metadata_pdf true = Raise
  /\ parse_pdf_call ascii_only broken_metadata_pdf true = Ok unknown_record
  /\ parse_pdf_call ascii_only unreadable_pdf false = Ok unknown_record.
Proof.
  split; [reflexivity|]. split.
  - exact (proj1 (proj2 (proj2 (parse_pdf_contains_failures ascii_only broken_metadata_pdf true))
                    eq_refl)).
  - exact (proj1 (proj2 (proj2 (parse_pdf_contains_failures ascii_only unreadable_pdf false))
                    eq_refl)).
Defined.

(** ** TitleGuesser on the example of the specification *)

Definition title_example : list pystr :=
  [py "INTRODUCTION"; py "The Art of Systems Design"; py "by A. Author"].

(** C3, as stated, fails: the example does not return the title-case line. *)
Lemma guess_title_example_is_not_the_title_case_line :
  _guess_title ascii_only title_example <> py "The Art of Systems Design".
Proof. vm_compute. discriminate. Qed.

(** C3, amended.  On the example [_guess_title] returns ["INTRODUCTION"]:
    the [by] line is rejected by the banned-word filter; the line
    ["The Art of Systems Design"] is not title case for [str.istitle] (its
    word [of] starts in lower case), gets no +2 and scores 2 (length and
    character set), while the all-caps line scores 3. *)
Theorem guess_title_example (U : UnicodeData) :
  _guess_title U title_example = py "INTRODUCTION"
  /\ is_some (re_search U re_I banned_pat (py "by A. Author")) = true
  /\ istitle U (py "The Art of Systems Design") = false
  /\ title_score U (py "The Art of Systems Design") = 2%Z
  /\ title_score U (py "INTRODUCTION") = 3%Z.
Proof. repeat split; vm_compute; reflexivity. Qed.

(** ** PersonExtractor on the examples *)

Definition people_example : pystr :=
  py "Written by John A. Smith, Edited by Dr. Jane Roe.".

(** C4, as stated, fails: the editor is not ["Jane Roe"]. *)
Lemma find_people_example_editor_keeps_period :
  _find_people ascii_only people_example None <> (py "John A. Smith", py "Jane Roe").
Proof. vm_compute. discriminate. Qed.

(** C4, amended.  On the example [_find_people] returns the author
    ["John A. Smith"] and the editor ["Jane Roe."]: the honorific [Dr.] is
    removed, and the full stop that ends the sentence stays, since the
    capture runs to the end of the line and [_clean_name] strips only a
    trailing comma or semicolon. *)
Theorem find_people_example (U : UnicodeData) :
  _find_people U people_example None = (py "John A. Smith", py "Jane Roe.").
Proof. vm_compute. reflexivity. Qed.

Lemma parse_pdf_fields_populated_witness :
  In "Language"%string field_names
  /\ exists v, field "Language"%string (parse_pdf ascii_only broken_metadata_pdf false) = Some v
               /\ v <> [] /\ ("Language"%string = "Format"%string -> v = py "PDF").
Proof.
  assert (H : In "Language"%string field_names) by (simpl; tauto).
  split; [exact H|].
  exact (parse_pdf_fields_populated ascii_only broken_metadata_pdf false H).
Defined.

(** ** Reasoning about the matcher *)

Section Matcher.

Variable U : UnicodeData.

Lemma in_guard (b : bool) (s s' : mstate) : In s' (guard b s) <-> b = true /\ s' = s.
Proof.
  unfold guard. destruct b; simpl; split.
  - intros [<- | []]. auto.
  - intros [_ ->]. auto.
  - intros [].
  - intros [H _]. discriminate H.
Qed.

Lemma in_run_seq fl r1 r2 s s' :
  In s' (run U fl (Seq r1 r2) s) <->
  exists mid, In mid (run U fl r1 s) /\ In s' (run U fl r2 mid).
Proof. simpl. apply in_flat_map. Qed.

Lemma in_run_alt fl r1 r2 s s' :
  In s' (run U fl (Alt r1 r2) s) <-> In s' (run U fl r1 s) \/ In s' (run U fl r2 s).
Proof. simpl. apply in_app_iff. Qed.

Lemma in_run_one fl a s s' :
  In s' (run U fl (One a) s) <->
  exists c, m_after s = c :: m_after s' /\ atom_ok U fl a c = true
            /\ m_before s' = c :: m_before s /\ m_groups s' = m_groups s.
Proof.
  simpl. destruct s as [bef aft g]; simpl. destruct aft as [|c rest].
  - split; [intros [] | intros (c & H & _); discriminate H].
  - rewrite in_guard. split.
    + intros [Hok ->]. exists c. simpl. auto.
    + intros (c' & H & Hok & Hb & Hg). destruct s' as [bef' aft' g']; simpl in *.
      injection H as <- <-. subst. auto.
Qed.

Lemma in_run_group fl i r s s' :
  In s' (run U fl (Group i r) s) <->
  exists s1, In s1 (run U fl r s) /\ m_before s' = m_before s1
             /\ m_after s' = m_after s1
             /\ m_groups s' = (i, consumed s s1) :: m_groups s1.
Proof.
  simpl. rewrite in_map_iff. split.
  - intros (s1 & <- & H). exists s1. simpl. auto.
  - intros (s1 & H & Hb & Ha & Hg). exists s1. split; [|exact H].
    destruct s' as [bef' aft' g']; simpl in *. subst. reflexivity.
Qed.

(** What a repetition consumes: a run of matching characters whose length
    respects the bounds. *)
Lemma in_rep ok : forall aft lo hi bef g s',
  In s' (rep ok lo hi bef aft g) ->
  exists taken, aft = taken ++ m_after s' /\ forallb ok taken = true
                /\ (lo <= length taken)%nat
                /\ (forall h, hi = Some h -> (length taken <= h)%nat)
                /\ m_before s' = rev taken ++ bef /\ m_groups s' = g.
Proof.
  induction aft as [|c rest IH]; intros lo hi bef g s' H.
  - assert (Hs : In s' (match lo with
                        | O => [{| m_before := bef; m_after := []; m_groups := g |}]
                        | S _ => [] end)).
    { simpl in H. destruct hi as [[|h]|]; exact H. }
    destruct lo; [|destruct Hs]. destruct Hs as [<- | []].
    exists []. simpl. repeat split; auto. intros; lia.
  - assert (Hstop : In s' (match lo with
                        | O => [{| m_before := bef; m_after := c :: rest; m_groups := g |}]
                        | S _ => [] end) ->
            exists taken, c :: rest = taken ++ m_after s' /\ forallb ok taken = true
                /\ (lo <= length taken)%nat
                /\ (forall h, hi = Some h -> (length taken <= h)%nat)
                /\ m_before s' = rev taken ++ bef /\ m_groups s' = g).
    { intros Hs. destruct lo; [|destruct Hs]. destruct Hs as [<- | []].
      exists []. simpl. repeat split; auto. intros; lia. }
    simpl in H.
    assert (Hgo : In s' (if ok c
                         then rep ok (pred lo) (option_map pred hi) (c :: bef) rest g
                              ++ (match lo with
                                  | O => [{| m_before := bef; m_after := c :: rest; m_groups := g |}]
                                  | S _ => [] end)
                         else (match lo with
                                  | O => [{| m_before := bef; m_after := c :: rest; m_groups := g |}]
                                  | S _ => [] end)) ->
            exists taken, c :: rest = taken ++ m_after s' /\ forallb ok taken = true
                /\ (lo <= length taken)%nat
                /\ (forall h, hi = Some h -> (length taken <= h)%nat)
                /\ m_before s' = rev taken ++ bef /\ m_groups s' = g).
    { intros Hs. destruct (ok c) eqn:Hc; [|auto].
      apply in_app_or in Hs. destruct Hs as [Hs|Hs]; [|auto].
      apply IH in Hs. destruct Hs as (taken & Ha & Hall & Hlo & Hhi & Hb & Hg).
      exists (c :: taken). simpl. rewrite Hc, Hall, <- Ha.
      repeat split; auto.
      - lia.
      - intros h Hh. subst hi. simpl in Hhi.
        destruct h as [|h]; [|specialize (Hhi h eq_refl); lia].
        exfalso. revert H. simpl. intros H. 
        destruct lo; simpl in H; [destruct H as [<-|[]]|destruct H].
        simpl in Ha. clear -Ha. apply (f_equal (@length N)) in Ha.
        rewrite length_app in Ha. simpl in Ha. lia.
      - rewrite Hb. simpl. rewrite <- app_assoc. reflexivity. }
    destruct hi as [[|h]|]; [apply Hstop; exact H | apply Hgo; exact H | apply Hgo; exact H].
Qed.

Lemma in_run_rep fl a lo hi s s' :
  In s' (run U fl (Rep a lo hi) s) ->
  exists taken, m_after s = taken ++ m_after s' /\ forallb (atom_ok U fl a) taken = true
                /\ (lo <= length taken)%nat
                /\ (forall h, hi = Some h -> (length taken <= h)%nat)
                /\ m_before s' = rev taken ++ m_before s /\ m_groups s' = m_groups s.
Proof. simpl. apply in_rep. Qed.

Lemma consumed_prefix (s s' : mstate) (taken : pystr) :
  m_after s = taken ++ m_after s' -> consumed s s' = taken.
Proof.
  intros H. unfold consumed. rewrite H, length_app.
  replace (length taken + length (m_after s') - length (m_after s'))%nat
    with (length taken) by lia.
  rewrite firstn_app, firstn_all, Nat.sub_diag. simpl. apply app_nil_r.
Qed.

Lemma match_at_some fl r bef aft m :
  match_at U fl r bef aft = Some m ->
  exists s', In s' (run U fl r (start_state bef aft))
             /\ mt_before m = bef
             /\ mt_text m = consumed (start_state bef aft) s'
             /\ mt_after m = m_after s'
             /\ mt_groups m = m_groups s'.
Proof.
  unfold match_at. destruct (run U fl r (start_state bef aft)) as [|s' l]; [discriminate|].
  intros H. injection H as <-. exists s'. simpl. auto.
Qed.

Lemma search_from_some fl r : forall aft bef m,
  search_from U fl r bef aft = Some m ->
  exists pre post, aft = pre ++ post /\ match_at U fl r (rev pre ++ bef) post = Some m.
Proof.
  induction aft as [|c rest IH]; intros bef m H; simpl in H.
  - destruct (match_at U fl r bef []) eqn:E; [|discriminate].
    injection H as <-. exists [], []. auto.
  - destruct (match_at U fl r bef (c :: rest)) eqn:E.
    + injection H as <-. exists [], (c :: rest). auto.
    + apply IH in H. destruct H as (pre & post & -> & H).
      exists (c :: pre), post. simpl. rewrite <- app_assoc. auto.
Qed.

Lemma search_from_none fl r : forall aft bef,
  search_from U fl r bef aft = None ->
  forall pre post, aft = pre ++ post -> match_at U fl r (rev pre ++ bef) post = None.
Proof.
  induction aft as [|c rest IH]; intros bef H pre post E; simpl in H.
  - destruct (match_at U fl r bef []) eqn:E'; [discriminate|].
    destruct pre; [|discriminate]. simpl in E. subst post. exact E'.
  - destruct (match_at U fl r bef (c :: rest)) eqn:E'; [discriminate|].
    destruct pre as [|c' pre]; simpl in E.
    + subst post. exact E'.
    + injection E as <- ->. simpl. rewrite <- app_assoc. apply (IH (c :: bef) H). reflexivity.
Qed.

Lemma in_run_not_behind fl a s s' :
  In s' (run U fl (NotBehind a) s) ->
  s' = s.
Proof. simpl. intros H. apply in_guard in H. tauto. Qed.

Lemma in_run_not_ahead fl a s s' :
  In s' (run U fl (NotAhead a) s) ->
  s' = s.
Proof. simpl. intros H. apply in_guard in H. tauto. Qed.

End Matcher.

(** Inversion of [In s' (run U fl r s)] along the syntax of [r]. *)
Ltac inv_run :=
  repeat match goal with
  | H : In _ (run _ _ (Seq _ _) _) |- _ =>
      apply in_run_seq in H; destruct H as (? & ? & H)
  | H : In _ (run _ _ (Alt _ _) _) |- _ =>
      apply in_run_alt in H; destruct H as [H | H]
  | H : In _ (run _ _ (One _) _) |- _ =>
      apply in_run_one in H; destruct H as (? & ? & ? & ? & ?)
  | H : In _ (run _ _ (Group _ _) _) |- _ =>
      apply in_run_group in H; destruct H as (? & H & ? & ? & ?)
  | H : In _ (run _ _ (Rep _ _ _) _) |- _ =>
      apply in_run_rep in H; destruct H as (? & ? & ? & ? & ? & ? & ?)
  | H : In _ (run _ _ (NotBehind _) _) |- _ => apply in_run_not_behind in H; subst
  | H : In _ (run _ _ (NotAhead _) _) |- _ => apply in_run_not_ahead in H; subst
  end.

(** [m_after s = c1 :: ... :: m_after s'] from the one-character steps. *)
Ltac chain :=
  lazymatch goal with
  | |- m_after ?x = m_after ?x => reflexivity
  | |- _ :: _ = _ => apply f_equal; chain
  | |- m_after ?x = _ =>
      match goal with H : m_after x = _ :: _ |- _ => rewrite H; chain end
  end.

(** ** YearExtractor *)

Section Year.
Variable U : UnicodeData.

Definition year_digits (a b c d : N) : Prop :=
  (a = 49 /\ 53 <= b <= 57 /\ isdecimal U c = true /\ isdecimal U d = true)
  \/ (a = 50 /\ b = 48 /\ 48 <= c <= 50 /\ isdecimal U d = true)
  \/ (a = 50 /\ b = 48 /\ c = 51 /\ 48 <= d <= 53).

Lemma lit_exact p c : atom_ok U no_flags (Lit p) c = true -> c = p.
Proof. simpl. unfold lit_ok. simpl. intros H. apply N.eqb_eq in H. auto. Qed.

Lemma range_exact lo hi c : atom_ok U no_flags (InSet [CRange lo hi]) c = true -> lo <= c <= hi.
Proof.
  simpl. unfold between. rewrite orb_false_r, andb_true_iff, !N.leb_le. auto.
Qed.

Lemma run_year_pat s s' :
  In s' (run U no_flags year_pat s) ->
  exists a b c d, m_after s = a :: b :: c :: d :: m_after s'
    /\ year_digits a b c d /\ assoc 1 (m_groups s') = Some [a; b; c; d].
Proof.
  let r := eval cbv in year_pat in change year_pat with r.
  intros H. inv_run.
  all: repeat match goal with
       | H : atom_ok _ _ (Lit _) _ = true |- _ => apply lit_exact in H
       | H : atom_ok _ _ (InSet [CRange _ _]) _ = true |- _ => apply range_exact in H
       end.
  all: try match goal with
       | H : forallb _ ?l = true, H2 : (2 <= length ?l)%nat,
         H3 : forall h, Some 2%nat = Some h -> _ |- _ =>
           specialize (H3 2%nat eq_refl);
           destruct l as [|c [|d [|e l]]]; simpl in H2, H3; try lia;
           simpl in H; apply andb_true_iff in H; destruct H as [Hc Hd];
           apply andb_true_iff in Hd; destruct Hd as [Hd _]
       end.
  all: simpl app in *.
  all: match goal with H : m_after ?x0 = m_after ?x1 |- context [m_after ?x0] =>
         rewrite H end.
  all: do 4 eexists; split; [chain|].
  all: split;
    [ subst; solve [ left; repeat split; auto; lia
                   | right; left; repeat split; auto; lia
                   | right; right; repeat split; auto; lia ]
    | match goal with H : m_groups _ = (1%nat, _) :: _ |- _ => rewrite H end;
      simpl; f_equal; apply consumed_prefix; simpl; chain ].
Qed.

(** Python's [int(s)] on a string of decimal digits. *)
Fixpoint int_of_digits (s : pystr) (acc : N) : option N :=
  match s with
  | [] => Some acc
  | c :: r =>
      match digit_value U c with
      | Some v => int_of_digits r (10 * acc + v)
      | None => None
      end
  end.

Definition year_token (y : pystr) : Prop :=
  length y = 4%nat /\ exists n, int_of_digits y 0 = Some n /\ 1500 <= n <= 2035.

Lemma digit_value_lt c v : digit_value U c = Some v -> v < 10.
Proof.
  unfold digit_value. destruct (c <? 128).
  - unfold between. destruct ((48 <=? c) && (c <=? 57)) eqn:E; [|discriminate].
    apply andb_true_iff in E. rewrite !N.leb_le in E. intros H. injection H as <-. lia.
  - apply uni_decimal_lt.
Qed.

Lemma isdecimal_value c : isdecimal U c = true -> exists v, digit_value U c = Some v /\ v < 10.
Proof.
  unfold isdecimal. destruct (digit_value U c) as [v|] eqn:E; [|discriminate].
  intros _. exists v. split; [reflexivity|]. eapply digit_value_lt; eauto.
Qed.

Lemma ascii_digit_value c : 48 <= c <= 57 -> digit_value U c = Some (c - 48).
Proof.
  intros H. unfold digit_value, between.
  replace (c <? 128) with true by (symmetry; apply N.ltb_lt; lia).
  replace (48 <=? c) with true by (symmetry; apply N.leb_le; lia).
  replace (c <=? 57) with true by (symmetry; apply N.leb_le; lia).
  reflexivity.
Qed.

Lemma year_digits_token a b c d : year_digits a b c d -> year_token [a; b; c; d].
Proof.
  intros H. split; [reflexivity|].
  destruct H as [(-> & Hb & Hc & Hd) | [(-> & -> & Hc & Hd) | (-> & -> & -> & Hd)]].
  - apply isdecimal_value in Hc, Hd.
    destruct Hc as (vc & Ec & Lc), Hd as (vd & Ed & Ld).
    exists (10 * (10 * (10 * (10 * 0 + 1) + (b - 48)) + vc) + vd).
    simpl int_of_digits. rewrite (@ascii_digit_value b) by lia. rewrite Ec, Ed.
    change (digit_value U 49) with (Some 1). cbv iota beta.
    split; [reflexivity | lia].
  - apply isdecimal_value in Hd. destruct Hd as (vd & Ed & Ld).
    exists (10 * (10 * (10 * (10 * 0 + 2) + 0) + (c - 48)) + vd).
    simpl int_of_digits. rewrite (@ascii_digit_value c) by lia. rewrite Ed.
    change (digit_value U 50) with (Some 2). change (digit_value U 48) with (Some 0).
    cbv iota beta. split; [reflexivity | lia].
  - exists (10 * (10 * (10 * (10 * 0 + 2) + 0) + 3) + (d - 48)).
    simpl int_of_digits. rewrite (@ascii_digit_value d) by lia.
    change (digit_value U 50) with (Some 2). change (digit_value U 48) with (Some 0).
    change (digit_value U 51) with (Some 3).
    cbv iota beta. split; [reflexivity | lia].
Qed.

Lemma search_year_token text m :
  re_search U no_flags year_pat text = Some m ->
  year_token (mt_text m) /\ group_str m 1 = mt_text m.
Proof.
  intros H. apply search_from_some in H. destruct H as (pre & post & _ & H).
  apply match_at_some in H. destruct H as (s' & Hin & _ & Ht & _ & Hg).
  apply run_year_pat in Hin. destruct Hin as (a & b & c & d & Ha & Hy & Hgr).
  assert (E : mt_text m = [a; b; c; d]).
  { rewrite Ht. apply consumed_prefix. exact Ha. }
  rewrite E. split; [apply year_digits_token; exact Hy|].
  unfold group_str, group. rewrite Hg, Hgr. reflexivity.
Qed.

Lemma year_near_terms_token terms text y :
  year_near_terms U terms text = Some y -> year_token y.
Proof.
  induction terms as [|term rest IH]; simpl; [discriminate|].
  destruct (re_search U re_I_S (term_pat term) text) as [m|]; [|exact IH].
  destruct (re_search U no_flags year_pat (mt_text m)) as [ym|] eqn:E; [|exact IH].
  intros H. injection H as <-. apply (proj1 (@search_year_token _ _ E)).
Qed.

(** C6.  For every text, [_find_year] returns either ["Unknown"] or a string
    of four decimal digits whose integer value lies between 1500 and 2035. *)
Theorem find_year_in_range (text : pystr) :
  _find_year U text = UNKNOWN
  \/ (length (_find_year U text) = 4%nat
      /\ exists n, int_of_digits (_find_year U text) 0 = Some n /\ 1500 <= n <= 2035).
Proof.
  unfold _find_year.
  destruct (year_near_terms U year_terms text) as [y|] eqn:E.
  - right. apply (@year_near_terms_token _ _ _ E).
  - destruct (re_search U no_flags year_pat text) as [m|] eqn:Em; [|left; reflexivity].
    right. destruct (@search_year_token _ _ Em) as [Ht ->]. exact Ht.
Qed.
End Year.

(** ** LanguageDetector *)

(** [counts[k]] *)
Fixpoint counts_get (k : script) (counts : counts_t) : N :=
  match counts with
  | [] => 0
  | (k', n) :: rest => if script_eqb k k' then n else counts_get k rest
  end.

Definition in_bucket (k : script) (c : N) : bool :=
  match classify c with Some k' => script_eqb k k' | None => false end.

(** The number of characters of the examined prefix that fall in the
    code-point range of bucket [k]. *)
Definition bucket_count (sample : pystr) (k : script) : N :=
  N.of_nat (length (filter (in_bucket k) (firstn 5000 sample))).

Definition script_index (k : script) : nat :=
  match k with
  | Devanagari => 0 | Bengali => 1 | Gurmukhi => 2 | Gujarati => 3 | Oriya => 4
  | Tamil => 5 | Telugu => 6 | Kannada => 7 | Malayalam => 8 | Latin => 9
  | Arabic => 10 | Cyrillic => 11
  end.

Lemma script_eqb_eq a b : script_eqb a b = true <-> a = b.
Proof. destruct a, b; simpl; split; intros H; try reflexivity; discriminate H. Qed.

Lemma script_eqb_refl a : script_eqb a a = true.
Proof. now apply script_eqb_eq. Qed.

Lemma incr_keys k : forall counts, map fst (incr k counts) = map fst counts.
Proof.
  induction counts as [|[k' n] rest IH]; simpl; [reflexivity|].
  destruct (script_eqb k k'); simpl; [reflexivity | now rewrite IH].
Qed.

Lemma count_scripts_keys : forall sample counts,
  map fst (count_scripts sample counts) = map fst counts.
Proof.
  induction sample as [|c rest IH]; intros counts; simpl; [reflexivity|].
  rewrite IH. destruct (classify c); [apply incr_keys | reflexivity].
Qed.

Lemma counts_get_incr k k' : forall counts,
  In k' (map fst counts) ->
  counts_get k (incr k' counts)
  = counts_get k counts + (if script_eqb k k' then 1 else 0).
Proof.
  induction counts as [|[k0 n] rest IH]; simpl; [intros []|].
  intros Hin. destruct (script_eqb k' k0) eqn:E0.
  - apply script_eqb_eq in E0. subst k0. simpl.
    destruct (script_eqb k k'); lia.
  - simpl. destruct Hin as [<- | Hin]; [rewrite script_eqb_refl in E0; discriminate|].
    destruct (script_eqb k k0) eqn:E1.
    + apply script_eqb_eq in E1. subst k0.
      destruct (script_eqb k k') eqn:E2; [|lia].
      apply script_eqb_eq in E2. subst k'. rewrite script_eqb_refl in E0. discriminate.
    + apply IH. exact Hin.
Qed.

Lemma counts_get_count_scripts k : forall sample counts,
  (forall k', In k' (map fst counts)) ->
  counts_get k (count_scripts sample counts)
  = counts_get k counts + N.of_nat (length (filter (in_bucket k) sample)).
Proof.
  induction sample as [|c rest IH]; intros counts Hall; [simpl; lia|].
  cbn [count_scripts filter]. unfold in_bucket at 1.
  destruct (classify c) as [k'|].
  - rewrite IH by (intros k0; rewrite incr_keys; apply Hall).
    rewrite counts_get_incr by apply Hall.
    destruct (script_eqb k k'); cbn [length]; lia.
  - rewrite IH by exact Hall. reflexivity.
Qed.

Lemma all_scripts_listed k : In k script_order.
Proof. destruct k; simpl; tauto. Qed.

Lemma script_counts_get sample k :
  counts_get k (script_counts sample) = bucket_count sample k.
Proof.
  unfold script_counts, bucket_count.
  rewrite counts_get_count_scripts by (intros k'; apply all_scripts_listed).
  destruct k; reflexivity.
Qed.

Lemma script_counts_keys sample : map fst (script_counts sample) = script_order.
Proof. unfold script_counts. rewrite count_scripts_keys. reflexivity. Qed.

(** [max] returns the first item whose count is maximal. *)
Lemma max_item_first : forall items best,
  exists l1 l2, best :: items = l1 ++ max_item best items :: l2
    /\ (forall x, In x l1 -> snd x < snd (max_item best items))
    /\ (forall x, In x l2 -> snd x <= snd (max_item best items)).
Proof.
  induction items as [|kv rest IH]; intros best; simpl.
  - exists [], []. simpl. repeat split; intros x [].
  - destruct (snd best <? snd kv) eqn:E.
    + apply N.ltb_lt in E.
      destruct (IH kv) as (l1 & l2 & Hd & H1 & H2).
      exists (best :: l1), l2. split; [simpl; rewrite Hd; reflexivity|].
      split; [|exact H2].
      intros x [<- | Hx]; [|apply H1; exact Hx].
      assert (Hkv : In kv (l1 ++ max_item kv rest :: l2)) by (rewrite <- Hd; left; reflexivity).
      apply in_app_or in Hkv. destruct Hkv as [Hkv | [Hkv | Hkv]].
      * specialize (H1 _ Hkv). lia.
      * rewrite Hkv. exact E.
      * specialize (H2 _ Hkv). lia.
    + apply N.ltb_ge in E.
      destruct (IH best) as (l1 & l2 & Hd & H1 & H2).
      destruct l1 as [|b l1]; simpl in Hd.
      * injection Hd as Hb Hrest. exists [], (kv :: l2). simpl.
        split; [rewrite <- Hb; do 2 f_equal; exact Hrest|].
        split; [intros x []|].
        intros x [<- | Hx]; [rewrite <- Hb; exact E | apply H2; exact Hx].
      * injection Hd as <- Hrest. exists (best :: kv :: l1), l2. simpl.
        split; [do 2 f_equal; exact Hrest|].
        split; [|exact H2].
        assert (Hbest : snd best < snd (max_item best rest)) by (apply H1; left; reflexivity).
        intros x [<- | [<- | Hx]]; [exact Hbest | lia | apply H1; right; exact Hx].
Qed.

Lemma order_before : forall l1 l2 a b,
  script_order = l1 ++ a :: l2 -> In b l2 -> (script_index a < script_index b)%nat.
Proof.
  unfold script_order. intros l1 l2 a b H Hb.
  repeat (destruct l1 as [|? l1]; simpl in H;
          [ injection H as <- <-; simpl in Hb;
            repeat (destruct Hb as [<- | Hb]; [simpl; lia|]); destruct Hb
          | injection H as <- H ]).
  destruct l1; discriminate H.
Qed.

Lemma order_nodup : NoDup script_order.
Proof.
  unfold script_order.
  repeat (constructor; [simpl; intros H; repeat (destruct H as [H|H]; [discriminate H|]); exact H|]).
  constructor.
Qed.

Lemma counts_get_in : forall counts k n,
  NoDup (map fst counts) -> In (k, n) counts -> counts_get k counts = n.
Proof.
  induction counts as [|[k0 n0] rest IH]; intros k n Hnd Hin; simpl in *; [destruct Hin|].
  inversion Hnd as [|? ? Hnot Hnd']; subst.
  destruct Hin as [E | Hin].
  - injection E as -> ->. rewrite script_eqb_refl. reflexivity.
  - destruct (script_eqb k k0) eqn:E.
    + apply script_eqb_eq in E. subst k0. exfalso. apply Hnot.
      apply in_map_iff. exists (k, n). auto.
    + apply IH; assumption.
Qed.

Section Language.
Variable U : UnicodeData.

Lemma guess_language_first_maximal sample k :
  (40 <= length (strip U sample))%nat ->
  20 <= bucket_count sample k ->
  (forall k', bucket_count sample k' <= bucket_count sample k) ->
  (forall k', (script_index k' < script_index k)%nat ->
              bucket_count sample k' < bucket_count sample k) ->
  _guess_language U sample = language_label k.
Proof.
  intros Hlen H20 Hmax Hfirst. unfold _guess_language.
  replace (length (strip U sample) <? 40)%nat with false
    by (symmetry; apply Nat.ltb_ge; exact Hlen).
  pose proof (script_counts_keys sample) as Hkeys.
  pose proof (script_counts_get sample) as Hget.
  destruct (script_counts sample) as [|kv rest] eqn:Ecounts; [discriminate Hkeys|].
  destruct (max_item_first rest kv) as (l1 & l2 & Hd & H1 & H2).
  destruct (max_item kv rest) as [r n] eqn:Er. simpl in H1, H2.
  assert (Hnd : NoDup (map fst (kv :: rest))) by (rewrite Hkeys; apply order_nodup).
  assert (Hr : bucket_count sample r = n).
  { rewrite <- Hget. apply counts_get_in; [exact Hnd|].
    rewrite Hd. apply in_or_app. right. left. reflexivity. }
  assert (Hk : In k (map fst (kv :: rest))) by (rewrite Hkeys; apply all_scripts_listed).
  apply in_map_iff in Hk. destruct Hk as ([k0 nk] & Ek & Hk). simpl in Ek. subst k0.
  assert (Hnk : bucket_count sample k = nk).
  { rewrite <- Hget. apply counts_get_in; assumption. }
  assert (E : r = k).
  { rewrite Hd in Hk. apply in_app_or in Hk. destruct Hk as [Hk | [Hk | Hk]].
    - specialize (H1 _ Hk). simpl in H1. specialize (Hmax r). lia.
    - injection Hk as -> _. reflexivity.
    - specialize (H2 _ Hk). simpl in H2.
      assert (Hlt : (script_index r < script_index k)%nat).
      { apply (@order_before (map fst l1) (map fst l2)).
        - rewrite <- Hkeys, Hd, map_app. reflexivity.
        - apply in_map_iff. exists (k, nk). auto. }
      specialize (Hfirst r Hlt). lia. }
  subst r. replace (n <? 20) with false by (symmetry; apply N.ltb_ge; lia).
  reflexivity.
Qed.

(** C10.  Ties between buckets with the same maximal count go to the bucket
    that comes first in the order Devanagari, Bengali, Gurmukhi, Gujarati,
    Oriya, Tamil, Telugu, Kannada, Malayalam, Latin, Arabic, Cyrillic: on a
    sample of at least 40 characters after trimming, [_guess_language]
    returns the label of the first bucket whose count is maximal, when that
    count is at least 20.  So equal maximal Devanagari and Latin counts give
    ["Hindi"], and equal maximal Latin and Cyrillic counts give ["English"]. *)
Theorem guess_language_ties (sample : pystr) :
  (40 <= length (strip U sample))%nat ->
  (forall k,
      20 <= bucket_count sample k ->
      (forall k', bucket_count sample k' <= bucket_count sample k) ->
      (forall k', (script_index k' < script_index k)%nat ->
                  bucket_count sample k' < bucket_count sample k) ->
      _guess_language U sample = language_label k)
  /\ (20 <= bucket_count sample Devanagari ->
      bucket_count sample Devanagari = bucket_count sample Latin ->
      (forall k', bucket_count sample k' <= bucket_count sample Devanagari) ->
      _guess_language U sample = py "Hindi")
  /\ (20 <= bucket_count sample Latin ->
      bucket_count sample Latin = bucket_count sample Cyrillic ->
      (forall k', bucket_count sample k' <= bucket_count sample Latin) ->
      (forall k', (script_index k' < script_index Latin)%nat ->
                  bucket_count sample k' < bucket_count sample Latin) ->
      _guess_language U sample = py "English").
Proof.
  intros Hlen. split; [|split].
  - intros k. apply guess_language_first_maximal. exact Hlen.
  - intros H20 _ Hmax.
    apply (@guess_language_first_maximal sample Devanagari Hlen H20 Hmax).
    intros k' Hk'. simpl in Hk'. lia.
  - intros H20 _ Hmax Hfirst.
    apply (@guess_language_first_maximal sample Latin Hlen H20 Hmax Hfirst).
Qed.

End Language.

(** Twenty Devanagari letters and twenty Latin letters. *)
Definition hindi_latin_tie : pystr := repeat 0x0905 20 ++ repeat (ch "a") 20.
(** Twenty Latin letters and twenty Cyrillic letters. *)
Definition latin_cyrillic_tie : pystr := repeat (ch "a") 20 ++ repeat 0x0430 20.

Lemma guess_language_ties_witness :
  (40 <= length (strip ascii_only hindi_latin_tie))%nat
  /\ bucket_count hindi_latin_tie Devanagari = bucket_count hindi_latin_tie Latin
  /\ _guess_language ascii_only hindi_latin_tie = py "Hindi"
  /\ bucket_count latin_cyrillic_tie Latin = bucket_count latin_cyrillic_tie Cyrillic
  /\ _guess_language ascii_only latin_cyrillic_tie = py "English".
Proof.
  assert (H1 : (40 <= length (strip ascii_only hindi_latin_tie))%nat)
    by (vm_compute; lia).
  assert (H2 : (40 <= length (strip ascii_only latin_cyrillic_tie))%nat)
    by (vm_compute; lia).
  destruct (guess_language_ties ascii_only hindi_latin_tie H1) as (_ & Hd & _).
  destruct (guess_language_ties ascii_only latin_cyrillic_tie H2) as (_ & _ & Hl).
  split; [exact H1|]. split; [vm_compute; reflexivity|].
  split; [|split; [vm_compute; reflexivity|]].
  - apply Hd.
    + vm_compute. discriminate.
    + vm_compute. reflexivity.
    + intros k'. destruct k'; vm_compute; discriminate.
  - apply Hl.
    + vm_compute. discriminate.
    + vm_compute. reflexivity.
    + intros k'. destruct k'; vm_compute; discriminate.
    + intros k' Hk'. destruct k'; cbn [script_index] in Hk'; try lia; vm_compute; reflexivity.
Defined.

(** ** PublisherExtractor: what is returned *)

Section Publisher.
Variable U : UnicodeData.

Lemma labelled_publisher_len lines p :
  labelled_publisher U lines = Some p -> len_2_120 p = true.
Proof.
  induction lines as [|ln rest IH]; simpl; [discriminate|].
  destruct (re_search U re_I publisher_pat ln) as [m|]; [|exact IH].
  destruct (len_2_120 (publisher_candidate U m)) eqn:E; [|exact IH].
  intros H. injection H as <-. exact E.
Qed.

Lemma plausible_publisher_found lines p :
  plausible_publisher U lines = Some p ->
  exists ln, In ln lines /\ p = strip U ln
             /\ is_some (re_search U re_I imprint_word_pat ln) = true
             /\ len_2_120 p = true.
Proof.
  induction lines as [|ln rest IH]; simpl; [discriminate|].
  destruct (is_some (re_search U re_I imprint_word_pat ln) && len_2_120 (strip U ln)) eqn:E.
  - intros H. injection H as <-. apply andb_true_iff in E. destruct E as [E1 E2].
    exists ln. auto.
  - intros H. destruct (IH H) as (ln' & Hin & Hrest). exists ln'. auto.
Qed.

(** The publisher is never empty and never longer than 120 characters:
    both passes accept a candidate only when its length is between 2 and
    120, and the sentinel has 7 characters. *)
Theorem find_publisher_length (text : pystr) :
  (2 <= length (_find_publisher U text) <= 120)%nat.
Proof.
  assert (Hlen : forall p, len_2_120 p = true -> (2 <= length p <= 120)%nat).
  { intros p H. unfold len_2_120 in H. apply andb_true_iff in H.
    destruct H as [H1 H2]. apply Nat.leb_le in H1, H2. lia. }
  unfold _find_publisher.
  destruct (labelled_publisher U (splitlines text)) as [p|] eqn:E1.
  - apply Hlen. apply (labelled_publisher_len _ E1).
  - destruct (plausible_publisher U (firstn 80 (splitlines text))) as [p|] eqn:E2.
    + destruct (plausible_publisher_found _ E2) as (ln & _ & _ & _ & H). apply Hlen, H.
    + vm_compute. lia.
Qed.

End Publisher.

(** ** [str.lower] and the capital sigma *)

(** A database that knows the Greek capitals U+0391 to U+03A9 and small
    letters U+03B1 to U+03C9: enough to run [lower] on Greek words. *)
Definition greek_letters : UnicodeData.
Proof.
  refine {| uni_space := fun _ => false;
            uni_decimal := fun _ => None;
            uni_alnum := fun c => between 913 937 c || between 945 969 c;
            uni_isupper := fun c => between 913 937 c;
            uni_islower := fun c => between 945 969 c;
            uni_istitle := fun _ => false;
            uni_lower := fun c => if between 913 937 c then [c + 32] else [c];
            uni_cased := fun c => between 913 937 c || between 945 969 c;
            uni_case_ignorable := fun _ => false;
            uni_ieq := fun _ _ => false |}.
  intros c v H; discriminate H.
Defined.

(** The sigma is lowered by its place in the word: ["ΑΣ".lower()] ends in
    the final sigma, ["ΣΑ".lower()] starts with the plain one, and a sigma
    between two letters is plain; case-ignorable characters such as the
    full stop are looked through on both sides, a blank is not. *)
Lemma lower_capital_sigma :
  lower greek_letters [913; 931] = [945; 962]
  /\ lower greek_letters [931; 913] = [963; 945]
  /\ lower greek_letters [913; 931; 913] = [945; 963; 945]
  /\ lower greek_letters [913; 931; 46; 32; 913] = [945; 962; 46; 32; 945]
  /\ lower greek_letters [931] = [963]
  /\ lower greek_letters (py "A." ++ [931]) = py "a." ++ [962]
  /\ lower greek_letters (py "A " ++ [931]) = py "a " ++ [963]
  /\ lower greek_letters [913; 931; 46; 913] = [945; 963; 46; 945].
Proof. repeat split; vm_compute; reflexivity. Qed.

(** The editor is compared with the author after [lower]: for the author
    ["ΑΣ"], the editor ["ας"] is the same name and is reset, the editor
    ["ασ"] is another name and is kept. *)
Lemma find_people_capital_sigma :
  _find_people greek_letters
    (py "By " ++ [913; 931] ++ [10] ++ py "Edited by " ++ [945; 962]) None
  = ([913; 931], UNKNOWN)
  /\ _find_people greek_letters
       (py "By " ++ [913; 931] ++ [10] ++ py "Edited by " ++ [945; 963]) None
     = ([913; 931], [945; 963]).
Proof. split; vm_compute; reflexivity. Qed.

(** ** PersonExtractor: roles *)

Section People.
Variable U : UnicodeData.

Lemma clean_name_nonempty (s : pystr) : _clean_name U s <> [].
Proof. unfold _clean_name. apply or_else_nonempty. discriminate. Qed.

(** Both names [_find_people] returns are non-empty, and it never reports
    the same person in both roles: an author and an editor that are both
    found (neither is ["Unknown"]) differ even when case is ignored. *)
Theorem find_people_no_double_role (text : pystr) (meta_author : option pystr) :
  fst (_find_people U text meta_author) <> []
  /\ snd (_find_people U text meta_author) <> []
  /\ (fst (_find_people U text meta_author) <> UNKNOWN ->
      snd (_find_people U text meta_author) <> UNKNOWN ->
      lower U (snd (_find_people U text meta_author))
      <> lower U (fst (_find_people U text meta_author))).
Proof.
  unfold _find_people.
  set (author := match re_search U re_I author_pat text with
                 | Some m => _ | None => _ end).
  set (editor := match re_search U re_I editor_pat text with
                 | Some m => _ | None => _ end).
  assert (Ha : author <> []).
  { unfold author. destruct (re_search U re_I author_pat text).
    - apply clean_name_nonempty.
    - destruct meta_author as [[|c a]|]; try discriminate.
      destruct (is_some _); [discriminate | apply clean_name_nonempty]. }
  assert (He : editor <> []).
  { unfold editor. destruct (re_search U re_I editor_pat text);
      [apply clean_name_nonempty | discriminate]. }
  destruct (negb (pystr_eqb author UNKNOWN) && pystr_eqb (lower U editor) (lower U author)) eqn:E;
    simpl.
  - repeat split; [exact Ha | discriminate | ].
    intros _ H. exfalso. apply H. reflexivity.
  - repeat split; [exact Ha | exact He |].
    intros Hne _ Hlow.
    apply andb_false_iff in E. destruct E as [E | E].
    + apply negb_false_iff, pystr_eqb_eq in E. contradiction.
    + rewrite Hlow, pystr_eqb_refl in E. discriminate.
Qed.

End People.

Lemma find_people_no_double_role_witness :
  fst (_find_people ascii_only people_example None) <> UNKNOWN
  /\ snd (_find_people ascii_only people_example None) <> UNKNOWN
  /\ lower ascii_only (snd (_find_people ascii_only people_example None))
     <> lower ascii_only (fst (_find_people ascii_only people_example None)).
Proof.
  assert (H1 : fst (_find_people ascii_only people_example None) <> UNKNOWN)
    by (vm_compute; discriminate).
  assert (H2 : snd (_find_people ascii_only people_example None) <> UNKNOWN)
    by (vm_compute; discriminate).
  split; [exact H1|]. split; [exact H2|].
  exact (proj2 (proj2 (find_people_no_double_role ascii_only people_example None)) H1 H2).
Defined.

(** ** TitleGuesser *)

Section Title.
Variable U : UnicodeData.

(** The test a trimmed line passes to become a candidate. *)
Definition title_candidate (t : pystr) : Prop :=
  (4 <= length t)%nat
  /\ re_search U re_I banned_pat t = None
  /\ (2 <= title_score U t)%Z.

Lemma title_candidates_spec lines s t :
  In (s, t) (title_candidates U lines) <->
  exists ln, In ln lines /\ t = strip U ln /\ s = title_score U t /\ title_candidate t.
Proof.
  induction lines as [|ln rest IH]; simpl.
  - split; [intros [] | intros (ln & [] & _)].
  - assert (Hrest : In (s, t) (title_candidates U rest) ->
            exists ln0, (ln = ln0 \/ In ln0 rest) /\ t = strip U ln0
                        /\ s = title_score U t /\ title_candidate t).
    { intros H. apply IH in H. destruct H as (ln0 & Hin & H). exists ln0. auto. }
    assert (Hback : forall ln0, In ln0 rest -> t = strip U ln0 -> s = title_score U t ->
                               title_candidate t -> In (s, t) (title_candidates U rest)).
    { intros ln0 Hin Ht Hs Hc. apply IH. exists ln0. auto. }
    destruct (length (strip U ln) <? 4)%nat eqn:E4.
    { split; [exact Hrest|]. intros (ln0 & Hor & Ht & Hs & Hc).
      destruct Hor as [<- | Hin]; [|eapply Hback; eauto].
      subst t. destruct Hc as (H4 & _). apply Nat.ltb_lt in E4. lia. }
    destruct (re_search U re_I banned_pat (strip U ln)) eqn:Eb; simpl.
    { split; [exact Hrest|]. intros (ln0 & Hor & Ht & Hs & Hc).
      destruct Hor as [<- | Hin]; [|eapply Hback; eauto].
      subst t. destruct Hc as (_ & Hb & _). congruence. }
    destruct (2 <=? title_score U (strip U ln))%Z eqn:E2.
    { split.
      + intros [H | H]; [|apply Hrest; exact H].
        injection H as <- <-. exists ln. apply Nat.ltb_ge in E4. apply Z.leb_le in E2.
        unfold title_candidate. repeat split; auto.
      + intros (ln0 & Hor & Ht & Hs & Hc).
        destruct Hor as [<- | Hin]; [|right; eapply Hback; eauto].
        left. subst. reflexivity. }
    split; [exact Hrest|]. intros (ln0 & Hor & Ht & Hs & Hc).
    destruct Hor as [<- | Hin]; [|eapply Hback; eauto].
    subst t. destruct Hc as (_ & _ & H2). apply Z.leb_gt in E2. lia.
Qed.

Lemma in_insert_sorted A (le : A -> A -> bool) x y : forall l,
  In y (insert_sorted le x l) <-> y = x \/ In y l.
Proof.
  induction l as [|z l IH]; simpl.
  - split; [intros [<- | []]; auto | intros [-> | []]; auto].
  - destruct (le x z); simpl; [split; intros [H | H]; auto|].
    rewrite IH. split; intros H; [destruct H as [H | [H | H]] | destruct H as [H | [H | H]]]; auto.
Qed.

Lemma in_sorted A (le : A -> A -> bool) y : forall l, In y (sorted le l) <-> In y l.
Proof.
  induction l as [|x l IH]; simpl; [tauto|].
  unfold sorted in *. simpl. rewrite in_insert_sorted, IH. split; intros [H | H]; auto.
Qed.

(** The head of an insertion-sorted list is below every element, for a
    total and transitive order. *)
Lemma insert_sorted_head A (le : A -> A -> bool)
      (total : forall a b, le a b = true \/ le b a = true)
      (trans : forall a b c, le a b = true -> le b c = true -> le a c = true) x :
  forall l h t,
    (forall h0 t0, l = h0 :: t0 -> forall y, In y l -> le h0 y = true) ->
    insert_sorted le x l = h :: t -> forall y, In y (insert_sorted le x l) -> le h y = true.
Proof.
  destruct l as [|z l]; simpl; intros h t Hl E y Hy.
  - injection E as <- <-. destruct Hy as [<- | []]. destruct (total x x); assumption.
  - specialize (Hl z l eq_refl).
    destruct (le x z) eqn:Exz.
    + injection E as <- <-. destruct Hy as [<- | Hy].
      * destruct (total x x); assumption.
      * apply trans with z; [exact Exz | apply Hl; exact Hy].
    + injection E as <- <-. destruct Hy as [<- | Hy].
      * apply Hl. left. reflexivity.
      * apply in_insert_sorted in Hy. destruct Hy as [-> | Hy].
        -- destruct (total x z) as [H | H]; [congruence | exact H].
        -- apply Hl. right. exact Hy.
Qed.

Lemma sorted_head A (le : A -> A -> bool)
      (total : forall a b, le a b = true \/ le b a = true)
      (trans : forall a b c, le a b = true -> le b c = true -> le a c = true) :
  forall l h t, sorted le l = h :: t -> forall y, In y l -> le h y = true.
Proof.
  induction l as [|x l IH]; intros h t E y Hy; [destruct Hy|].
  unfold sorted in *. simpl in E.
  eapply (@insert_sorted_head _ le total trans x); [ | exact E | ].
  - intros h0 t0 E0 y0 Hy0. apply (IH h0 t0 E0). apply (in_sorted le). exact Hy0.
  - apply in_insert_sorted. destruct Hy as [<- | Hy]; [left; reflexivity|].
    right. apply (in_sorted le). exact Hy.
Qed.

Lemma title_key_le_total a b : title_key_le a b = true \/ title_key_le b a = true.
Proof.
  unfold title_key_le.
  destruct (Z.lt_total (- fst a) (- fst b)) as [H | [H | H]].
  - left. apply orb_true_iff. left. apply Z.ltb_lt. exact H.
  - destruct (Nat.le_ge_cases (length (snd a)) (length (snd b))) as [L | L].
    + left. apply orb_true_iff. right. apply andb_true_iff.
      split; [apply Z.eqb_eq; exact H | apply Nat.leb_le; exact L].
    + right. apply orb_true_iff. right. apply andb_true_iff.
      split; [apply Z.eqb_eq; symmetry; exact H | apply Nat.leb_le; exact L].
  - right. apply orb_true_iff. left. apply Z.ltb_lt. exact H.
Qed.

Lemma title_key_le_spec a b :
  title_key_le a b = true <->
  (fst b < fst a)%Z \/ (fst a = fst b /\ (length (snd a) <= length (snd b))%nat).
Proof.
  unfold title_key_le. rewrite orb_true_iff, andb_true_iff, Z.ltb_lt, Z.eqb_eq, Nat.leb_le.
  split; intros [H | [H1 H2]]; (left; lia) || (right; split; lia).
Qed.

Lemma title_key_le_trans a b c :
  title_key_le a b = true -> title_key_le b c = true -> title_key_le a c = true.
Proof. rewrite !title_key_le_spec. lia. Qed.

(** What [_guess_title] returns is ["Unknown"] or one of the first 25 lines,
    trimmed: one with at least 4 characters, no banned word and a score of
    at least 2. *)
Theorem guess_title_is_a_candidate (lines : list pystr) :
  _guess_title U lines = UNKNOWN
  \/ exists ln, In ln (firstn 25 lines)
                /\ _guess_title U lines = strip U ln
                /\ (4 <= length (strip U ln))%nat
                /\ re_search U re_I banned_pat (strip U ln) = None
                /\ (2 <= title_score U (strip U ln))%Z.
Proof.
  unfold _guess_title.
  destruct (sorted title_key_le (title_candidates U (firstn 25 lines))) as [|[s t] l] eqn:E;
    [left; reflexivity|].
  right.
  assert (Hin : In (s, t) (title_candidates U (firstn 25 lines))).
  { apply (in_sorted title_key_le). rewrite E. left. reflexivity. }
  apply title_candidates_spec in Hin.
  destruct Hin as (ln & Hin & -> & _ & H4 & Hb & H2). exists ln. repeat split; auto.
Qed.

(** No candidate among the first 25 lines beats the title returned: its
    score is not higher, and at equal score it is not shorter. *)
Theorem guess_title_is_best (lines : list pystr) (ln : pystr) :
  In ln (firstn 25 lines) ->
  (4 <= length (strip U ln))%nat ->
  re_search U re_I banned_pat (strip U ln) = None ->
  (2 <= title_score U (strip U ln))%Z ->
  (title_score U (strip U ln) <= title_score U (_guess_title U lines))%Z
  /\ (title_score U (strip U ln) = title_score U (_guess_title U lines) ->
      (length (_guess_title U lines) <= length (strip U ln))%nat).
Proof.
  intros Hin H4 Hb H2.
  assert (Hc : In (title_score U (strip U ln), strip U ln)
                  (title_candidates U (firstn 25 lines))).
  { apply title_candidates_spec. exists ln. unfold title_candidate. repeat split; auto. }
  unfold _guess_title.
  destruct (sorted title_key_le (title_candidates U (firstn 25 lines))) as [|[s t] l] eqn:E.
  - exfalso. apply (in_sorted title_key_le) in Hc. rewrite E in Hc. destruct Hc.
  - assert (Hh : In (s, t) (title_candidates U (firstn 25 lines))).
    { apply (in_sorted title_key_le). rewrite E. left. reflexivity. }
    apply title_candidates_spec in Hh. destruct Hh as (ln0 & _ & _ & Hs & _).
    pose proof (@sorted_head _ title_key_le title_key_le_total title_key_le_trans _ _ _ E _ Hc) as Hle.
    apply title_key_le_spec in Hle. simpl in Hle. subst s. lia.
Qed.

End Title.

Lemma guess_title_is_best_witness :
  (title_score ascii_only (strip ascii_only (py "The Art of Systems Design"))
   <= title_score ascii_only (_guess_title ascii_only title_example))%Z.
Proof.
  refine (proj1 (@guess_title_is_best ascii_only title_example
                   (py "The Art of Systems Design") _ _ _ _)).
  - vm_compute. right. left. reflexivity.
  - vm_compute. lia.
  - vm_compute. reflexivity.
  - vm_compute. discriminate.
Defined.

(** ** LanguageDetector: when a language is reported *)

Section LanguageReported.
Variable U : UnicodeData.

(** A language is reported only on evidence: when [_guess_language] returns
    something other than ["Unknown"], the trimmed sample has at least 40
    characters and the result is the label of a script that has at least 20
    of the first 5000 characters and no fewer than any other script. *)
Theorem guess_language_reports_dominant (sample : pystr) :
  _guess_language U sample <> UNKNOWN ->
  (40 <= length (strip U sample))%nat
  /\ exists k, _guess_language U sample = language_label k
               /\ 20 <= bucket_count sample k
               /\ forall k', bucket_count sample k' <= bucket_count sample k.
Proof.
  unfold _guess_language.
  destruct (length (strip U sample) <? 40)%nat eqn:E40; [intros H; contradiction H; reflexivity|].
  apply Nat.ltb_ge in E40.
  destruct (script_counts sample) as [|kv rest] eqn:Ec; [intros H; contradiction H; reflexivity|].
  destruct (max_item_first rest kv) as (l1 & l2 & Hsplit & Hlt & Hle).
  destruct (max_item kv rest) as [k n] eqn:Em.
  destruct (n <? 20) eqn:E20; [intros H; contradiction H; reflexivity|].
  apply N.ltb_ge in E20. intros _. split; [exact E40|].
  assert (Hnd : NoDup (map fst (script_counts sample))).
  { rewrite script_counts_keys. apply order_nodup. }
  assert (Hk : bucket_count sample k = n).
  { rewrite <- script_counts_get. apply counts_get_in; [exact Hnd|].
    rewrite Ec, Hsplit. apply in_or_app. right. left. reflexivity. }
  exists k. split; [reflexivity|]. split; [lia|].
  intros k'. rewrite Hk.
  assert (Hin : In (k', bucket_count sample k') (script_counts sample)).
  { assert (Hk' : In k' (map fst (script_counts sample))).
    { rewrite script_counts_keys. apply all_scripts_listed. }
    apply in_map_iff in Hk'. destruct Hk' as ([k0 n0] & Hf & Hin0). simpl in Hf. subst k0.
    rewrite <- script_counts_get. rewrite (@counts_get_in _ _ _ Hnd Hin0). exact Hin0. }
  rewrite Ec, Hsplit in Hin. apply in_app_or in Hin. destruct Hin as [Hin | [Hin | Hin]].
  - apply Hlt in Hin. simpl in Hin. lia.
  - inversion Hin. lia.
  - apply Hle in Hin. simpl in Hin. lia.
Qed.

End LanguageReported.

Lemma guess_language_reports_dominant_witness :
  (40 <= length (strip ascii_only (repeat (ch "a") 40)))%nat.
Proof.
  refine (proj1 (@guess_language_reports_dominant ascii_only (repeat (ch "a") 40) _)).
  vm_compute. discriminate.
Defined.

(** ** Front text and the OCR fallback *)

Section FrontText.
Variable U : UnicodeData.

Lemma loaded_texts_app (a b : list (result pystr)) :
  loaded_texts (a ++ b) = loaded_texts a ++ loaded_texts b.
Proof.
  induction a as [|[t|] a IH]; simpl; [reflexivity | f_equal; exact IH | exact IH].
Qed.

Lemma firstn_min_length (A : Type) (n : nat) (l : list A) :
  firstn (Nat.min n (length l)) l = firstn n l.
Proof.
  destruct (Nat.le_ge_cases n (length l)) as [H | H].
  - rewrite Nat.min_l by exact H. reflexivity.
  - rewrite Nat.min_r by exact H. rewrite firstn_all, firstn_all2 by exact H. reflexivity.
Qed.

Lemma front_text_firstn (doc : document) (n : nat) :
  _front_text U doc n = strip U (join [10] (loaded_texts (firstn n (doc_pages doc)))).
Proof. unfold _front_text, page_count. rewrite firstn_min_length. reflexivity. Qed.

(** [_front_text] reads no page beyond the limit: pages that follow the
    first [n] do not change the text. *)
Theorem front_text_page_limit (md : result (option pydict))
        (ps extra : list (result pystr)) (n : nat) :
  (n <= length ps)%nat ->
  _front_text U {| doc_metadata := md; doc_pages := ps ++ extra |} n
  = _front_text U {| doc_metadata := md; doc_pages := ps |} n.
Proof.
  intros H. rewrite !front_text_firstn. simpl.
  rewrite firstn_app. replace (n - length ps)%nat with 0%nat by lia.
  rewrite firstn_O, app_nil_r. reflexivity.
Qed.

(** A page within the limit that fails to load is skipped: the text is that
    of the document without the page, read with the limit lowered by one. *)
Theorem front_text_skips_failed_page (md : result (option pydict))
        (a b : list (result pystr)) (n : nat) :
  (length a <= n)%nat ->
  _front_text U {| doc_metadata := md; doc_pages := a ++ Raise :: b |} (S n)
  = _front_text U {| doc_metadata := md; doc_pages := a ++ b |} n.
Proof.
  intros H. rewrite !front_text_firstn. simpl doc_pages.
  rewrite !firstn_app. replace (S n - length a)%nat with (S (n - length a)) by lia.
  rewrite (@firstn_all2 _ (S n) a) by lia. rewrite (@firstn_all2 _ n a) by lia.
  cbn [firstn]. rewrite !loaded_texts_app. reflexivity.
Qed.

(** The OCR fallback changes nothing when it cannot help: when OCR is
    not available, when the OCR run fails, or when, for the document opened,
    the front text already has 40 characters or the OCR text is not longer
    than it, [parse_pdf] with OCR returns the record it returns without. *)
Theorem ocr_fallback_only_when_needed (pdf : pdf_file) :
  OCR_AVAILABLE pdf = false
  \/ ocr_pages pdf = Raise
  \/ (forall doc, fitz_open pdf = Ok doc ->
        (40 <= length (_front_text U doc 8))%nat
        \/ (length (_ocr_first_pages pdf) <= length (_front_text U doc 8))%nat) ->
  parse_pdf U pdf true = parse_pdf U pdf false.
Proof.
  intros H.
  assert (G : forall doc, fitz_open pdf = Ok doc ->
                (40 <= length (_front_text U doc 8))%nat
                \/ (length (_ocr_first_pages pdf) <= length (_front_text U doc 8))%nat).
  { destruct H as [H | [H | H]]; [| | exact H]; intros doc _; right;
      unfold _ocr_first_pages; rewrite H; simpl; try lia.
    destruct (negb (OCR_AVAILABLE pdf)); simpl; lia. }
  clear H. unfold parse_pdf, parse_pdf_try, bind.
  destruct (fitz_open pdf) as [doc|] eqn:Eo; [|reflexivity].
  destruct (doc_metadata doc) as [md|]; [|reflexivity].
  specialize (G doc eq_refl). cbv zeta.
  assert (T : (if true && (length (_front_text U doc 8) <? 40)%nat
               then if (length (_front_text U doc 8) <? length (_ocr_first_pages pdf))%nat
                    then _ocr_first_pages pdf else _front_text U doc 8
               else _front_text U doc 8) = _front_text U doc 8).
  { simpl andb. destruct (length (_front_text U doc 8) <? 40)%nat eqn:E40; [|reflexivity].
    apply Nat.ltb_lt in E40. destruct G as [G | G]; [lia|].
    apply Nat.ltb_ge in G. rewrite G. reflexivity. }
  rewrite !T. reflexivity.
Qed.

(** For a document of more than 8 pages the language is detected on the
    front text of the first 12 pages, never on OCR text: the Language field
    is the same with and without OCR. *)
Theorem long_document_language_ignores_ocr (pdf : pdf_file) :
  (forall doc, fitz_open pdf = Ok doc -> (8 < page_count doc)%nat) ->
  field "Language" (parse_pdf U pdf true) = field "Language" (parse_pdf U pdf false).
Proof.
  intros H. unfold parse_pdf, parse_pdf_try, bind.
  destruct (fitz_open pdf) as [doc|] eqn:Eo; [|reflexivity].
  destruct (doc_metadata doc) as [md|]; [|reflexivity].
  specialize (H doc eq_refl). apply Nat.leb_gt in H. cbv zeta. rewrite !H.
  repeat match goal with
         | |- context [_find_people ?u ?t ?m] => destruct (_find_people u t m)
         end.
  reflexivity.
Qed.

End FrontText.

Definition three_page_document : document :=
  {| doc_metadata := Ok None;
     doc_pages := [Ok (py "A Short Book"); Raise; Ok (py "by Some One")] |}.

Lemma front_text_page_limit_witness :
  _front_text ascii_only
    {| doc_metadata := Ok None;
       doc_pages := [Ok (py "A Short Book")] ++ [Raise; Ok (py "by Some One")] |} 1
  = _front_text ascii_only
      {| doc_metadata := Ok None; doc_pages := [Ok (py "A Short Book")] |} 1.
Proof. apply front_text_page_limit. simpl. lia. Defined.

Lemma front_text_skips_failed_page_witness :
  _front_text ascii_only
    {| doc_metadata := Ok None;
       doc_pages := [Ok (py "A Short Book")] ++ Raise :: [Ok (py "by Some One")] |} 3
  = _front_text ascii_only
      {| doc_metadata := Ok None;
         doc_pages := [Ok (py "A Short Book")] ++ [Ok (py "by Some One")] |} 2.
Proof. apply front_text_skips_failed_page. simpl. lia. Defined.

Definition scanned_pdf_without_ocr : pdf_file :=
  {| fitz_open := Ok three_page_document;
     OCR_AVAILABLE := false;
     ocr_pages := Ok [py "A Scanned Book of Considerable Length, by Some One Else"] |}.

Lemma ocr_fallback_only_when_needed_witness :
  parse_pdf ascii_only scanned_pdf_without_ocr true
  = parse_pdf ascii_only scanned_pdf_without_ocr false.
Proof. apply ocr_fallback_only_when_needed. left. reflexivity. Defined.

Definition long_scanned_pdf : pdf_file :=
  {| fitz_open := Ok {| doc_metadata := Ok None; doc_pages := repeat (Ok []) 9 |};
     OCR_AVAILABLE := true;
     ocr_pages := Ok [repeat (ch "a") 60] |}.

Lemma long_document_language_ignores_ocr_witness :
  field "Language" (parse_pdf ascii_only long_scanned_pdf true)
  = field "Language" (parse_pdf ascii_only long_scanned_pdf false).
Proof.
  apply long_document_language_ignores_ocr.
  intros doc H. injection H as <-. vm_compute. lia.
Defined.

(** ** CatalogBuilder *)

Lemma pystr_leb_total : forall a b, pystr_leb a b = true \/ pystr_leb b a = true.
Proof.
  induction a as [|x a IH]; intros [|y b]; simpl; auto.
  destruct (x <? y) eqn:E1; [auto|]. destruct (y <? x) eqn:E2; [auto|]. apply IH.
Qed.

Lemma pystr_leb_trans : forall a b c,
  pystr_leb a b = true -> pystr_leb b c = true -> pystr_leb a c = true.
Proof.
  induction a as [|x a IH]; intros [|y b] [|z c]; simpl; auto; try discriminate.
  destruct (x <? y) eqn:E1, (y <? x) eqn:E2, (y <? z) eqn:E3, (z <? y) eqn:E4,
           (x <? z) eqn:E5, (z <? x) eqn:E6; intros H1 H2; try reflexivity; try discriminate;
    try (apply N.ltb_lt in E1); try (apply N.ltb_ge in E1);
    try (apply N.ltb_lt in E2); try (apply N.ltb_ge in E2);
    try (apply N.ltb_lt in E3); try (apply N.ltb_ge in E3);
    try (apply N.ltb_lt in E4); try (apply N.ltb_ge in E4);
    try (apply N.ltb_lt in E5); try (apply N.ltb_ge in E5);
    try (apply N.ltb_lt in E6); try (apply N.ltb_ge in E6); try lia.
  eapply IH; eassumption.
Qed.

Lemma insert_sorted_perm A (le : A -> A -> bool) x :
  forall l, Permutation (insert_sorted le x l) (x :: l).
Proof.
  induction l as [|y l IH]; simpl; [apply Permutation_refl|].
  destruct (le x y); [apply Permutation_refl|].
  eapply perm_trans; [apply perm_skip; exact IH | apply perm_swap].
Qed.

Lemma sorted_perm A (le : A -> A -> bool) : forall l, Permutation (sorted le l) l.
Proof.
  induction l as [|x l IH]; [apply Permutation_refl|].
  unfold sorted in *. simpl.
  eapply perm_trans; [apply insert_sorted_perm | apply perm_skip; exact IH].
Qed.

Lemma insert_sorted_strongly A (le : A -> A -> bool)
      (total : forall a b, le a b = true \/ le b a = true)
      (trans : forall a b c, le a b = true -> le b c = true -> le a c = true) x :
  forall l, StronglySorted (fun a b => le a b = true) l ->
            StronglySorted (fun a b => le a b = true) (insert_sorted le x l).
Proof.
  induction l as [|y l IH]; intros Hs; simpl.
  - constructor; constructor.
  - inversion Hs as [|? ? Hl Hy]; subst.
    destruct (le x y) eqn:E.
    + constructor; [exact Hs|]. constructor; [exact E|].
      apply Forall_forall. intros z Hz. apply (trans x y z E).
      rewrite Forall_forall in Hy. apply Hy. exact Hz.
    + constructor; [apply IH; exact Hl|].
      apply Forall_forall. intros z Hz. apply in_insert_sorted in Hz.
      destruct Hz as [-> | Hz].
      * destruct (total x y) as [T | T]; [congruence | exact T].
      * rewrite Forall_forall in Hy. apply Hy. exact Hz.
Qed.

Lemma sorted_strongly A (le : A -> A -> bool)
      (total : forall a b, le a b = true \/ le b a = true)
      (trans : forall a b c, le a b = true -> le b c = true -> le a c = true) :
  forall l, StronglySorted (fun a b => le a b = true) (sorted le l).
Proof.
  induction l as [|x l IH]; [constructor|].
  unfold sorted in *. simpl. apply insert_sorted_strongly; assumption.
Qed.

Lemma field_record_set (c k : string) (v : pystr) : forall r,
  field c (record_set k v r) = if String.eqb c k then Some v else field c r.
Proof.
  induction r as [|[k' v'] r IH]; simpl.
  - destruct (String.eqb c k); reflexivity.
  - destruct (String.eqb k k') eqn:E; simpl.
    + apply String.eqb_eq in E. subst k'. destruct (String.eqb c k); reflexivity.
    + rewrite IH. destruct (String.eqb c k) eqn:E2; [|reflexivity].
      apply String.eqb_eq in E2. subst c. rewrite E. reflexivity.
Qed.

Section CatalogProps.
Variable U : UnicodeData.

(** The record of [parse_pdf] has the eight keys, in this order, each bound
    to a non-empty string. *)
Lemma parse_pdf_shape (pdf : pdf_file) (use_ocr : bool) :
  exists v1 v2 v3 v4 v5 v6 v7,
    (v1 <> [] /\ v2 <> [] /\ v3 <> [] /\ v4 <> [] /\ v5 <> [] /\ v6 <> [] /\ v7 <> [])
    /\ parse_pdf U pdf use_ocr
       = [("Book Title"%string, v1); ("Author"%string, v2); ("Editor"%string, v3);
          ("Year of Publishing"%string, v4); ("Publisher"%string, v5);
          ("Language"%string, v6); ("Number of Pages"%string, v7);
          ("Format"%string, py "PDF")].
Proof.
  unfold parse_pdf, parse_pdf_try, bind.
  destruct (fitz_open pdf) as [doc|];
    [|do 7 exists UNKNOWN; split; [repeat split; discriminate | reflexivity]].
  destruct (doc_metadata doc) as [md|];
    [|do 7 exists UNKNOWN; split; [repeat split; discriminate | reflexivity]].
  cbv zeta.
  match goal with |- context [_find_people ?u ?t ?a] =>
    destruct (_find_people u t a) as [author editor] end.
  cbv beta iota.
  do 7 eexists. split; [|reflexivity].
  repeat split; try (apply or_else_nonempty; exact UNKNOWN_nonempty).
  destruct (page_count doc); [exact UNKNOWN_nonempty | apply str_of_nat_nonempty].
Qed.

Definition catalog_row (use_ocr : bool) (p : pdf_path) : list (option pystr) :=
  map (fun c => field c (parse_pdf U (path_file p) use_ocr)) field_names
  ++ [Some (path_resolved p)].

Lemma build_catalog_rows (found : list pdf_path) (use_ocr : bool) :
  build_catalog U found use_ocr
  = map (catalog_row use_ocr) (sorted (name_key_le U) found).
Proof.
  unfold build_catalog, DataFrame. rewrite map_map. apply map_ext. intros p.
  unfold catalog_row, columns, field_names. cbn [map app].
  rewrite !field_record_set. cbn [String.eqb Ascii.eqb Bool.eqb].
  destruct (parse_pdf_shape (path_file p) use_ocr)
    as (v1 & v2 & v3 & v4 & v5 & v6 & v7 & _ & ->).
  reflexivity.
Qed.

(** The catalogue is the list of the PDFs found, reordered by lower-cased
    file name (ascending, as strings compare): its rows are those of a
    permutation of the paths that is sorted on that key, and each row holds
    the eight fields [parse_pdf] infers for the file, in column order,
    followed by the resolved path of the file. *)
Theorem build_catalog_sorted_by_name (found : list pdf_path) (use_ocr : bool) :
  exists pdfs,
    Permutation pdfs found
    /\ StronglySorted
         (fun p q => pystr_leb (lower U (path_name p)) (lower U (path_name q)) = true) pdfs
    /\ build_catalog U found use_ocr
       = map (fun p =>
                map (fun c => field c (parse_pdf U (path_file p) use_ocr)) field_names
                ++ [Some (path_resolved p)]) pdfs.
Proof.
  exists (sorted (name_key_le U) found). split; [apply sorted_perm|]. split.
  - apply (@sorted_strongly _ (name_key_le U)).
    + intros a b. apply pystr_leb_total.
    + intros a b c. apply pystr_leb_trans.
  - apply build_catalog_rows.
Qed.

(** The catalogue has one row per PDF found and nine cells per row, and, as
    long as no resolved path is the empty string, no cell is empty: every
    cell holds a non-empty string. *)
Theorem build_catalog_rows_complete (found : list pdf_path) (use_ocr : bool) :
  (forall p, In p found -> path_resolved p <> []) ->
  length (build_catalog U found use_ocr) = length found
  /\ forall row, In row (build_catalog U found use_ocr) ->
       length row = 9%nat
       /\ forall cell, In cell row -> exists v, cell = Some v /\ v <> [].
Proof.
  intros Hres. rewrite build_catalog_rows. split.
  - rewrite length_map. apply Permutation_length, sorted_perm.
  - intros row Hrow. apply in_map_iff in Hrow. destruct Hrow as (p & <- & Hp).
    apply (proj1 (@in_sorted _ (name_key_le U) p found)) in Hp. specialize (Hres p Hp).
    unfold catalog_row.
    destruct (parse_pdf_shape (path_file p) use_ocr)
      as (v1 & v2 & v3 & v4 & v5 & v6 & v7 & (H1 & H2 & H3 & H4 & H5 & H6 & H7) & ->).
    split; [reflexivity|].
    intros cell Hc. cbn in Hc.
    repeat (destruct Hc as [<- | Hc]; [eexists; split; [reflexivity | assumption || discriminate]|]).
    contradiction.
Qed.

(** A PDF that cannot be opened is not dropped from the catalogue: it has
    its row, with ["Unknown"] in the seven inferred columns, ["PDF"] as
    format and its resolved path. *)
Theorem build_catalog_keeps_unreadable_pdfs
        (found : list pdf_path) (use_ocr : bool) (p : pdf_path) :
  In p found ->
  fitz_open (path_file p) = Raise ->
  In (repeat (Some UNKNOWN) 7 ++ [Some (py "PDF"); Some (path_resolved p)])
     (build_catalog U found use_ocr).
Proof.
  intros Hp Hopen. rewrite build_catalog_rows. apply in_map_iff. exists p. split.
  - unfold catalog_row, parse_pdf, parse_pdf_try, bind. rewrite Hopen. reflexivity.
  - apply (proj2 (@in_sorted _ (name_key_le U) p found)). exact Hp.
Qed.

End CatalogProps.

Definition found_example : list pdf_path :=
  [ {| path_name := py "b.pdf"; path_resolved := py "/library/b.pdf";
       path_file := unreadable_pdf |};
    {| path_name := py "A.pdf"; path_resolved := py "/library/A.pdf";
       path_file := broken_metadata_pdf |} ].

Lemma build_catalog_rows_complete_witness :
  length (build_catalog ascii_only found_example false) = length found_example.
Proof.
  refine (proj1 (@build_catalog_rows_complete ascii_only found_example false _)).
  intros p [<- | [<- | []]]; discriminate.
Defined.

Lemma build_catalog_keeps_unreadable_pdfs_witness :
  In (repeat (Some UNKNOWN) 7 ++ [Some (py "PDF"); Some (py "/library/b.pdf")])
     (build_catalog ascii_only found_example true).
Proof.
  apply (@build_catalog_keeps_unreadable_pdfs ascii_only found_example true
           {| path_name := py "b.pdf"; path_resolved := py "/library/b.pdf";
              path_file := unreadable_pdf |}).
  - left. reflexivity.
  - reflexivity.
Defined.

(** ** What a match spans *)

(** [y] occurs in [t] as a run of consecutive characters. *)
Definition occurs_in (y t : pystr) : Prop := exists a b, t = a ++ y ++ b.

Lemma occurs_in_refl (t : pystr) : occurs_in t t.
Proof. exists [], []. simpl. rewrite app_nil_r. reflexivity. Qed.

Lemma occurs_in_trans (x y z : pystr) : occurs_in x y -> occurs_in y z -> occurs_in x z.
Proof.
  intros (a & b & ->) (c & d & ->). exists (c ++ a), (b ++ d).
  rewrite <- !app_assoc. reflexivity.
Qed.

Lemma occurs_in_app_l (x y z : pystr) : occurs_in x y -> occurs_in x (y ++ z).
Proof. intros (a & b & ->). exists a, (b ++ z). rewrite <- !app_assoc. reflexivity. Qed.

Lemma occurs_in_app_r (x y z : pystr) : occurs_in x z -> occurs_in x (y ++ z).
Proof. intros (a & b & ->). exists (y ++ a), b. rewrite <- !app_assoc. reflexivity. Qed.

Lemma occurs_in_In (x t : pystr) (c : N) : occurs_in x t -> In c x -> In c t.
Proof. intros (a & b & ->) H. apply in_or_app. right. apply in_or_app. left. exact H. Qed.

Section Span.
Variable U : UnicodeData.

(** A run of the matcher only moves the cursor forward, over [taken], and
    every group it adds holds a piece of [taken]. *)
Lemma run_span fl : forall r s s',
  In s' (run U fl r s) ->
  exists taken,
    m_after s = taken ++ m_after s'
    /\ m_before s' = rev taken ++ m_before s
    /\ forall i v, In (i, v) (m_groups s') -> In (i, v) (m_groups s) \/ occurs_in v taken.
Proof.
  assert (Hstay : forall b s s', In s' (guard b s) ->
            exists taken, m_after s = taken ++ m_after s'
              /\ m_before s' = rev taken ++ m_before s
              /\ forall i v, In (i, v) (m_groups s') ->
                             In (i, v) (m_groups s) \/ occurs_in v taken).
  { intros b s s' H. apply in_guard in H. destruct H as [_ ->].
    exists []. repeat split; auto. }
  induction r as [|a|a lo hi|r1 IH1 r2 IH2|r1 IH1 r2 IH2|i r IH| | | |a|a]; intros s s' H;
    try (simpl in H; apply Hstay in H; exact H).
  - simpl in H. destruct H as [<- | []]. exists []. repeat split; auto.
  - apply in_run_one in H. destruct H as (c & Ha & _ & Hb & Hg).
    exists [c]. rewrite Hg. repeat split; auto.
  - apply in_run_rep in H. destruct H as (taken & Ha & _ & _ & _ & Hb & Hg).
    exists taken. rewrite Hg. repeat split; auto.
  - apply in_run_seq in H. destruct H as (mid & H1 & H2).
    destruct (IH1 _ _ H1) as (t1 & Ha1 & Hb1 & Hg1).
    destruct (IH2 _ _ H2) as (t2 & Ha2 & Hb2 & Hg2).
    exists (t1 ++ t2). rewrite Ha1, Ha2, Hb2, Hb1, rev_app_distr, <- !app_assoc.
    repeat split; auto.
    intros i v Hv. destruct (Hg2 _ _ Hv) as [Hm | Ho].
    + destruct (Hg1 _ _ Hm) as [Hs | Ho]; [left; exact Hs|].
      right. apply occurs_in_app_l. exact Ho.
    + right. apply occurs_in_app_r. exact Ho.
  - apply in_run_alt in H. destruct H as [H | H]; [apply IH1 | apply IH2]; exact H.
  - apply in_run_group in H. destruct H as (s1 & H1 & Hb & Ha & Hg).
    destruct (IH _ _ H1) as (t & Ha1 & Hb1 & Hg1).
    exists t. rewrite Ha, Hb, Hg. repeat split; auto.
    intros j v [Hv | Hv].
    + injection Hv as <- <-. right. rewrite (consumed_prefix s s1 t Ha1). apply occurs_in_refl.
    + apply Hg1. exact Hv.
Qed.

Lemma assoc_In (i : nat) (v : pystr) : forall g, assoc i g = Some v -> In (i, v) g.
Proof.
  induction g as [|[j w] g IH]; simpl; [discriminate|].
  destruct (Nat.eqb i j) eqn:E.
  - intros H. injection H as <-. apply Nat.eqb_eq in E. subst j. left. reflexivity.
  - intros H. right. apply IH. exact H.
Qed.

(** A match object splits the text it was found in, and its groups hold
    pieces of the matched text. *)
Lemma match_at_span fl r bef aft m :
  match_at U fl r bef aft = Some m ->
  mt_before m = bef /\ aft = mt_text m ++ mt_after m
  /\ forall i v, group m i = Some v -> occurs_in v (mt_text m).
Proof.
  intros H. apply match_at_some in H. destruct H as (s' & Hin & Hb & Ht & Ha & Hg).
  destruct (@run_span fl r _ _ Hin) as (taken & Ha1 & _ & Hg1). simpl in Ha1.
  rewrite (consumed_prefix (start_state bef aft) s' taken Ha1) in Ht.
  rewrite Hb, Ht, Ha. repeat split; auto.
  intros i v Hv. unfold group in Hv. rewrite Hg in Hv. apply assoc_In in Hv.
  destruct (Hg1 _ _ Hv) as [[] | Ho]. exact Ho.
Qed.

Lemma re_search_span fl r text m :
  re_search U fl r text = Some m ->
  text = rev (mt_before m) ++ mt_text m ++ mt_after m
  /\ forall i v, group m i = Some v -> occurs_in v (mt_text m).
Proof.
  intros H. apply search_from_some in H. destruct H as (pre & post & -> & H).
  apply match_at_span in H. destruct H as (Hb & Hp & Hg).
  rewrite Hb, app_nil_r, rev_involutive, <- Hp. auto.
Qed.

Lemma re_search_text_occurs fl r text m :
  re_search U fl r text = Some m -> occurs_in (mt_text m) text.
Proof.
  intros H. apply re_search_span in H. destruct H as [H _].
  exists (rev (mt_before m)), (mt_after m). exact H.
Qed.

End Span.

(** ** YearExtractor: where the year comes from *)

Section YearOccurs.
Variable U : UnicodeData.

Lemma year_near_terms_occurs text : forall terms y,
  year_near_terms U terms text = Some y -> occurs_in y text.
Proof.
  induction terms as [|term rest IH]; simpl; intros y H; [discriminate|].
  destruct (re_search U re_I_S (term_pat term) text) as [m|] eqn:Em; [|apply IH; exact H].
  destruct (re_search U no_flags year_pat (mt_text m)) as [y0|] eqn:Ey; [|apply IH; exact H].
  injection H as <-.
  eapply occurs_in_trans; eapply re_search_text_occurs; eassumption.
Qed.

(** The year is read in the text, never made up: what [_find_year] returns
    is ["Unknown"] or a run of consecutive characters of the text. *)
Theorem find_year_occurs_in_text (text : pystr) :
  _find_year U text = UNKNOWN \/ occurs_in (_find_year U text) text.
Proof.
  unfold _find_year.
  destruct (year_near_terms U year_terms text) as [y|] eqn:E.
  - right. eapply year_near_terms_occurs. exact E.
  - destruct (re_search U no_flags year_pat text) as [m|] eqn:Em; [|left; reflexivity].
    right. unfold group_str. destruct (group m 1) as [v|] eqn:Eg.
    + eapply occurs_in_trans; [|eapply re_search_text_occurs; exact Em].
      apply re_search_span in Em. destruct Em as [_ Hg]. apply Hg with (i := 1%nat). exact Eg.
    + exists [], text. reflexivity.
Qed.

End YearOccurs.

(** ** PublisherExtractor: the label needs its separator *)

(** C7, as stated, fails: a label followed by the name without [:] or [-]
    is not recognised.  ["Publisher Acme Corp"] gives ["Unknown"], not the
    remainder, and ["Published by Oxford University Press"] comes back
    whole, label included, through the second pass. *)
Lemma find_publisher_separator_is_not_optional :
  _find_publisher ascii_only (py "Publisher Acme Corp") = UNKNOWN
  /\ _find_publisher ascii_only (py "Publisher Acme Corp") <> py "Acme Corp"
  /\ _find_publisher ascii_only (py "Published by Oxford University Press")
     = py "Published by Oxford University Press"
  /\ _find_publisher ascii_only (py "Publisher: Acme Corp") = py "Acme Corp".
Proof.
  split; [vm_compute; reflexivity|]. split; [vm_compute; discriminate|].
  split; vm_compute; reflexivity.
Qed.

Section PublisherSeparator.
Variable U : UnicodeData.

Lemma splitlines_loop_chars (c : N) (ln : pystr) : forall s cur b,
  In ln (splitlines_loop s cur b) -> In c ln -> In c s \/ In c cur.
Proof.
  induction s as [|x s IH]; intros cur b Hln Hc; simpl in Hln.
  - destruct cur as [|y cur]; [destruct Hln|].
    destruct Hln as [<- | []]. right. apply in_rev. exact Hc.
  - destruct (b && (x =? 10)).
    + destruct (IH _ _ Hln Hc) as [H | H]; [left; right; exact H | right; exact H].
    + destruct (is_linebreak x).
      * destruct Hln as [<- | Hln]; [right; apply in_rev; exact Hc|].
        destruct (IH _ _ Hln Hc) as [H | []]. left. right. exact H.
      * destruct (IH _ _ Hln Hc) as [H | [<- | H]];
          [left; right; exact H | left; left; reflexivity | right; exact H].
Qed.

Lemma splitlines_chars (text ln : pystr) (c : N) :
  In ln (splitlines text) -> In c ln -> In c text.
Proof.
  intros Hln Hc. destruct (splitlines_loop_chars c ln text [] false Hln Hc) as [H | []].
  exact H.
Qed.

Lemma ci_eq_nonletter (p c : N) :
  p < 128 -> ascii_upper p = false -> ascii_lower p = false ->
  ci_eq U p c = true -> p = c.
Proof.
  unfold ci_eq. intros Hp Hu Hl. apply N.ltb_lt in Hp. rewrite Hp, Hu, Hl. simpl.
  rewrite orb_false_r. apply N.eqb_eq.
Qed.

Lemma separator_char (c : N) :
  atom_ok U re_I (InSet [CChar (ch ":"); CChar (ch "-")]) c = true ->
  c = ch ":" \/ c = ch "-".
Proof.
  intros H. unfold atom_ok, existsb, citem_ok, lit_ok in H. simpl ignorecase in H.
  rewrite orb_false_r in H. apply orb_true_iff in H.
  destruct H as [H | H]; apply ci_eq_nonletter in H; try reflexivity; auto.
Qed.

Lemma publisher_pat_needs_separator (ln : pystr) :
  (forall c, In c ln -> c <> ch ":" /\ c <> ch "-") ->
  re_search U re_I publisher_pat ln = None.
Proof.
  intros Hno. destruct (re_search U re_I publisher_pat ln) as [m|] eqn:E; [exfalso|reflexivity].
  apply search_from_some in E. destruct E as (pre & post & -> & E).
  apply match_at_some in E. destruct E as (s' & Hin & _).
  unfold publisher_pat in Hin. cbn [seq] in Hin.
  apply in_run_seq in Hin. destruct Hin as (m1 & H1 & Hin).
  apply in_run_seq in Hin. destruct Hin as (m2 & H2 & Hin).
  apply in_run_seq in Hin. destruct Hin as (m3 & H3 & Hin).
  apply in_run_seq in Hin. destruct Hin as (m4 & H4 & _).
  apply in_run_one in H4. destruct H4 as (c & Hc & Hok & _).
  apply run_span in H1. destruct H1 as (t1 & Ha1 & _).
  apply run_span in H2. destruct H2 as (t2 & Ha2 & _).
  apply run_span in H3. destruct H3 as (t3 & Ha3 & _).
  simpl in Ha1. rewrite Ha2, Ha3, Hc in Ha1.
  assert (Hcin : In c (pre ++ post)).
  { rewrite Ha1. apply in_or_app. right. repeat (apply in_or_app; right). left. reflexivity. }
  destruct (Hno c Hcin) as [N1 N2].
  destruct (separator_char c Hok); contradiction.
Qed.

Lemma labelled_publisher_none (lines : list pystr) :
  (forall ln, In ln lines -> re_search U re_I publisher_pat ln = None) ->
  labelled_publisher U lines = None.
Proof.
  induction lines as [|ln rest IH]; intros H; simpl; [reflexivity|].
  rewrite (H ln (or_introl eq_refl)). apply IH. intros l Hl. apply H. right. exact Hl.
Qed.

(** C7, amended.  The separator after the label is not optional: a label
    counts only with its [:] or [-].  In a text with no [:] and no [-], no
    labelled line is recognised, so the label is never cut off: the
    publisher is ["Unknown"] or a whole line, trimmed, among the first 80,
    one that holds an imprint word. *)
Theorem find_publisher_label_needs_separator (text : pystr) :
  (forall c, In c text -> c <> ch ":" /\ c <> ch "-") ->
  _find_publisher U text = UNKNOWN
  \/ exists ln, In ln (firstn 80 (splitlines text))
                /\ is_some (re_search U re_I imprint_word_pat ln) = true
                /\ _find_publisher U text = strip U ln.
Proof.
  intros Hno. unfold _find_publisher.
  rewrite labelled_publisher_none.
  - destruct (plausible_publisher U (firstn 80 (splitlines text))) as [p|] eqn:E;
      [|left; reflexivity].
    right. apply plausible_publisher_found in E.
    destruct E as (ln & Hin & -> & Hs & _). exists ln. auto.
  - intros ln Hln. apply publisher_pat_needs_separator.
    intros c Hc. apply Hno. eapply splitlines_chars; eassumption.
Qed.

End PublisherSeparator.

Lemma find_publisher_label_needs_separator_witness :
  _find_publisher ascii_only (py "Published by Oxford University Press") = UNKNOWN
  \/ exists ln, In ln (firstn 80 (splitlines (py "Published by Oxford University Press")))
                /\ is_some (re_search ascii_only re_I imprint_word_pat ln) = true
                /\ _find_publisher ascii_only (py "Published by Oxford University Press")
                   = strip ascii_only ln.
Proof.
  apply find_publisher_label_needs_separator.
  intros c Hc. vm_compute in Hc.
  repeat (destruct Hc as [<- | Hc]; [split; discriminate|]). contradiction.
Defined.

(** ** NameNormalizer: the shape of a cleaned name *)

Section CleanName.
Variable U : UnicodeData.

(** No whitespace character of [s] is followed by another. *)
Definition single_spaced (s : pystr) : Prop :=
  forall a c1 c2 b, s = a ++ c1 :: c2 :: b -> isspace U c1 = true -> isspace U c2 = false.

Lemma lstrip_head (s : pystr) (c : N) (r : pystr) :
  lstrip U s = c :: r -> isspace U c = false.
Proof.
  induction s as [|x s IH]; simpl; [discriminate|].
  destruct (isspace U x) eqn:E; [exact IH|]. intros H. injection H as <- <-. exact E.
Qed.

Lemma lstrip_suffix (s : pystr) : exists sp, s = sp ++ lstrip U s.
Proof.
  induction s as [|x s [sp IH]]; simpl; [exists []; reflexivity|].
  destruct (isspace U x); [|exists []; reflexivity].
  exists (x :: sp). simpl. f_equal. exact IH.
Qed.

Lemma lstrip_fix (s : pystr) :
  (forall c r, s = c :: r -> isspace U c = false) -> lstrip U s = s.
Proof.
  destruct s as [|x s]; intros H; simpl; [reflexivity|].
  rewrite (H x s eq_refl). reflexivity.
Qed.

Lemma strip_inside (s : pystr) : exists sp1 sp2, s = sp1 ++ strip U s ++ sp2.
Proof.
  unfold strip, rstrip.
  destruct (lstrip_suffix s) as [sp1 H1].
  destruct (lstrip_suffix (rev (lstrip U s))) as [sp2 H2].
  exists sp1, (rev sp2). rewrite <- rev_app_distr, <- H2, rev_involutive. exact H1.
Qed.

Lemma strip_idempotent (s : pystr) : strip U (strip U s) = strip U s.
Proof.
  unfold strip, rstrip.
  set (y := lstrip U s). set (w := lstrip U (rev y)).
  assert (Hw : lstrip U (rev w) = rev w).
  { apply lstrip_fix. intros c r Hc.
    destruct (lstrip_suffix (rev y)) as [sp Hsp]. fold w in Hsp.
    assert (Hy : y = rev w ++ rev sp).
    { rewrite <- rev_app_distr, <- Hsp, rev_involutive. reflexivity. }
    rewrite Hc in Hy. simpl in Hy. apply (lstrip_head s Hy). }
  rewrite Hw, rev_involutive. f_equal.
  apply lstrip_fix. intros c r Hc. apply (lstrip_head (rev y) Hc).
Qed.

Lemma single_spaced_strip (s : pystr) : single_spaced s -> single_spaced (strip U s).
Proof.
  intros H a c1 c2 b E. destruct (strip_inside s) as (sp1 & sp2 & Hs).
  apply (H (sp1 ++ a) c1 c2 (b ++ sp2)).
  rewrite Hs at 1. rewrite E, <- !app_assoc. reflexivity.
Qed.

Lemma single_spaced_cons (c : N) (s : pystr) :
  single_spaced s ->
  (isspace U c = true -> forall c' r, s = c' :: r -> isspace U c' = false) ->
  single_spaced (c :: s).
Proof.
  intros Hs Hc [|x a] c1 c2 b E.
  - simpl in E. injection E as <- ->. intros H. apply (Hc H c2 b eq_refl).
  - simpl in E. injection E as _ ->. apply (Hs a c1 c2 b eq_refl).
Qed.

(** The longest run of characters satisfying [ok] at the front, and the
    rest. *)
Fixpoint span (ok : N -> bool) (s : pystr) : pystr * pystr :=
  match s with
  | c :: r => if ok c then let (run, rest) := span ok r in (c :: run, rest) else ([], s)
  | [] => ([], [])
  end.

Lemma span_app ok (s : pystr) : s = fst (span ok s) ++ snd (span ok s).
Proof.
  induction s as [|c r IH]; simpl; [reflexivity|].
  destruct (ok c); [|reflexivity].
  destruct (span ok r) as [run rest]. simpl in *. f_equal. exact IH.
Qed.

Lemma span_run ok (s : pystr) : forallb ok (fst (span ok s)) = true.
Proof.
  induction s as [|c r IH]; simpl; [reflexivity|].
  destruct (ok c) eqn:E; [|reflexivity].
  destruct (span ok r) as [run rest]. simpl in *. rewrite E. exact IH.
Qed.

Lemma span_rest ok (s : pystr) (c : N) (r : pystr) :
  snd (span ok s) = c :: r -> ok c = false.
Proof.
  induction s as [|x s IH]; simpl; [discriminate|].
  destruct (ok x) eqn:E.
  - destruct (span ok s) as [run rest]. simpl in *. exact IH.
  - simpl. intros H. injection H as <- _. exact E.
Qed.

(** Greedy repetition without upper bound: the first result takes the whole
    run, and there is none when the run is shorter than [lo]. *)
Lemma rep_greedy ok : forall aft lo bef g,
  if (lo <=? length (fst (span ok aft)))%nat
  then exists tl, rep ok lo None bef aft g
                  = {| m_before := rev (fst (span ok aft)) ++ bef;
                       m_after := snd (span ok aft); m_groups := g |} :: tl
  else rep ok lo None bef aft g = [].
Proof.
  induction aft as [|c r IH]; intros lo bef g.
  - simpl. destruct lo; simpl; [eexists; reflexivity | reflexivity].
  - cbn [rep span]. destruct (ok c) eqn:E.
    + specialize (IH (pred lo) (c :: bef) g).
      destruct (span ok r) as [run rest]. cbn [fst snd length] in *.
      replace (lo <=? S (length run))%nat with (pred lo <=? length run)%nat
        by (destruct lo; simpl; reflexivity).
      destruct (pred lo <=? length run)%nat eqn:El.
      * destruct IH as [tl IH]. cbn [option_map]. rewrite IH. eexists. simpl.
        rewrite <- app_assoc. reflexivity.
      * cbn [option_map]. rewrite IH. simpl.
        destruct lo; [discriminate El | reflexivity].
    + cbn [fst snd length]. destruct lo; simpl; [eexists; reflexivity | reflexivity].
Qed.

Lemma match_spaces (bef aft : pystr) :
  if (2 <=? length (fst (span (isspace U) aft)))%nat
  then exists m, match_at U no_flags spaces_pat bef aft = Some m
                 /\ mt_text m = fst (span (isspace U) aft)
                 /\ mt_after m = snd (span (isspace U) aft)
  else match_at U no_flags spaces_pat bef aft = None.
Proof.
  unfold match_at, spaces_pat. cbn [run atom_ok start_state m_before m_after m_groups].
  pose proof (rep_greedy (isspace U) aft 2 bef []) as H.
  change (atom_ok U no_flags Space) with (isspace U).
  destruct (2 <=? length (fst (span (isspace U) aft)))%nat.
  - destruct H as [tl H]. rewrite H. eexists. split; [reflexivity|]. split; [|reflexivity].
    cbn [mt_text]. apply consumed_prefix. cbn [m_after]. apply span_app.
  - rewrite H. reflexivity.
Qed.

Lemma sub_spaces_single_spaced : forall fuel bef aft,
  (length aft < fuel)%nat ->
  single_spaced (sub_loop U fuel no_flags spaces_pat (py " ") bef aft)
  /\ forall c r, sub_loop U fuel no_flags spaces_pat (py " ") bef aft = c :: r ->
                 isspace U c = true ->
                 exists c' r', aft = c' :: r' /\ isspace U c' = true.
Proof.
  induction fuel as [|f IH]; intros bef aft Hlen; [lia|].
  cbn [sub_loop]. pose proof (match_spaces bef aft) as Hm.
  pose proof (span_app (isspace U) aft) as Happ.
  pose proof (@span_rest (isspace U) aft) as Hrest.
  destruct (span (isspace U) aft) as [run rest] eqn:Espan. cbn [fst snd] in *.
  destruct (2 <=? length run)%nat eqn:E2.
  - apply Nat.leb_le in E2. destruct Hm as (m & -> & Ht & Ha). rewrite Ht, Ha.
    destruct run as [|x run]; [simpl in E2; lia|].
    assert (Hl : (length rest < f)%nat).
    { rewrite Happ in Hlen. rewrite length_app in Hlen. simpl in *. lia. }
    destruct (IH (rev (x :: run) ++ bef) rest Hl) as [Hs Hh].
    split.
    + change (py " " ++ ?t) with (32 :: t). apply single_spaced_cons; [exact Hs|].
      intros _ c' r' Ho. destruct (isspace U c') eqn:Ec; [|reflexivity].
      destruct (Hh c' r' Ho Ec) as (c2 & r2 & Hr & Hc2).
      rewrite (Hrest c2 r2 Hr) in Hc2. discriminate.
    + intros c r _ _. exists x, (run ++ rest). split; [exact Happ|].
      pose proof (span_run (isspace U) aft) as Hrun. rewrite Espan in Hrun.
      simpl in Hrun. apply andb_true_iff in Hrun. apply Hrun.
  - apply Nat.leb_gt in E2. rewrite Hm.
    destruct aft as [|c r]; [split; [intros [|? ?] ? ? ? E; discriminate E | intros ? ? E; discriminate E]|].
    assert (Hl : (length r < f)%nat) by (simpl in Hlen; lia).
    destruct (IH (c :: bef) r Hl) as [Hs Hh].
    split.
    + apply single_spaced_cons; [exact Hs|].
      intros Hc c' r' Ho. destruct (isspace U c') eqn:Ec; [|reflexivity].
      destruct (Hh c' r' Ho Ec) as (c2 & r2 & -> & Hc2).
      exfalso. simpl in Espan. rewrite Hc, Hc2 in Espan.
      destruct (span (isspace U) r2) as [run2 rest2]. injection Espan as <- _.
      simpl in E2. lia.
    + intros c0 r0 E Hc0. injection E as <- _. exists c, r. auto.
Qed.

Lemma UNKNOWN_no_space (c : N) : In c UNKNOWN -> isspace U c = false.
Proof.
  intros H. simpl in H.
  repeat (destruct H as [<- | H]; [reflexivity|]). contradiction.
Qed.

(** A cleaned name is normalised: it is not empty, it has no whitespace at
    either end (trimming it again changes nothing) and no whitespace
    character in it is followed by another. *)
Theorem clean_name_normalised (s : pystr) :
  _clean_name U s <> []
  /\ strip U (_clean_name U s) = _clean_name U s
  /\ forall a c1 c2 b, _clean_name U s = a ++ c1 :: c2 :: b ->
                       isspace U c1 = true -> isspace U c2 = false.
Proof.
  unfold _clean_name.
  set (s2 := re_sub U re_I honorific_pat [] _).
  assert (Hx : single_spaced (strip U (re_sub U no_flags spaces_pat (py " ") s2))).
  { apply single_spaced_strip. unfold re_sub.
    apply (@sub_spaces_single_spaced (S (length s2)) [] s2). lia. }
  pose proof (strip_idempotent (re_sub U no_flags spaces_pat (py " ") s2)) as Hi.
  destruct (strip U (re_sub U no_flags spaces_pat (py " ") s2)) as [|c r]; simpl or_else.
  - split; [discriminate|]. split; [reflexivity|].
    intros a c1 c2 b E H1. exfalso.
    assert (Hin : In c1 UNKNOWN).
    { rewrite E. apply in_or_app. right. left. reflexivity. }
    rewrite (@UNKNOWN_no_space c1 Hin) in H1. discriminate.
  - split; [discriminate|]. split; [exact Hi | exact Hx].
Qed.

End CleanName.

(** ** PersonExtractor: an [Edited by] line *)

Section EditedBy.
Variable U : UnicodeData.










Section Name.
Variables name rest : pystr.
Hypothesis name_starts : exists c r, name = c :: r /\ isspace U c = false.
Hypothesis name_chars : forall c, In c name -> c <> 10 /\ c <> ch ",".
Hypothesis name_ends : rest = [] \/ exists c r, rest = c :: r /\ (c = 10 \/ c = ch ",").



End Name.


End EditedBy.


(** ** InferenceEngine: how far into the document it reads *)

Section Reach.
Variable U : UnicodeData.

(** Only the first 12 pages are ever read.  Pages after the twelfth change
    nothing in the record but the page count: every other field is the same
    as for the document cut after [ps]. *)
Theorem parse_pdf_reads_first_12_pages
        (md : result (option pydict)) (ps extra : list (result pystr))
        (ocr_available : bool) (ocr : result (list pystr))
        (use_ocr : bool) (k : string) :
  (12 <= length ps)%nat ->
  k <> "Number of Pages"%string ->
  field k (parse_pdf U {| fitz_open := Ok {| doc_metadata := md; doc_pages := ps ++ extra |};
                          OCR_AVAILABLE := ocr_available; ocr_pages := ocr |} use_ocr)
  = field k (parse_pdf U {| fitz_open := Ok {| doc_metadata := md; doc_pages := ps |};
                            OCR_AVAILABLE := ocr_available; ocr_pages := ocr |} use_ocr).
Proof.
  intros Hlen Hk. unfold parse_pdf, parse_pdf_try, bind.
  cbn [fitz_open doc_metadata].
  destruct md as [md|]; [|reflexivity].
  cbv zeta. unfold page_count. cbn [doc_pages].
  assert (Hfront : forall n, (n <= length ps)%nat ->
            _front_text U {| doc_metadata := Ok md; doc_pages := ps ++ extra |} n
            = _front_text U {| doc_metadata := Ok md; doc_pages := ps |} n).
  { intros n Hn. rewrite !front_text_firstn. cbn [doc_pages].
    rewrite firstn_app. replace (n - length ps)%nat with 0%nat by lia.
    rewrite firstn_O, app_nil_r. reflexivity. }
  rewrite !(Hfront 8%nat) by lia.
  assert (E1 : (length (ps ++ extra) <=? 8)%nat = false)
    by (apply Nat.leb_gt; rewrite length_app; lia).
  assert (E2 : (length ps <=? 8)%nat = false) by (apply Nat.leb_gt; lia).
  rewrite E1, E2.
  replace (Nat.min 12 (length (ps ++ extra))) with 12%nat
    by (rewrite length_app; lia).
  replace (Nat.min 12 (length ps)) with 12%nat by lia.
  rewrite !(Hfront 12%nat) by lia.
  unfold _ocr_first_pages. cbn [OCR_AVAILABLE ocr_pages].
  match goal with |- context [_find_people ?u ?t ?a] =>
    destruct (_find_people u t a) as [author editor] end.
  cbn [field]. apply String.eqb_neq in Hk. rewrite !Hk. reflexivity.
Qed.

End Reach.

Lemma parse_pdf_reads_first_12_pages_witness :
  field "Language"
        (parse_pdf ascii_only
           {| fitz_open := Ok {| doc_metadata := Ok None;
                                 doc_pages := repeat (Ok (py "Text")) 12
                                              ++ [Ok (py "Copyright 1999 Acme Books")] |};
              OCR_AVAILABLE := false; ocr_pages := Raise |} false)
  = field "Language"
          (parse_pdf ascii_only
             {| fitz_open := Ok {| doc_metadata := Ok None;
                                   doc_pages := repeat (Ok (py "Text")) 12 |};
                OCR_AVAILABLE := false; ocr_pages := Raise |} false).
Proof.
  apply parse_pdf_reads_first_12_pages; [simpl; lia | discriminate].
Defined.

(** ** The bounds of the loops *)

Section Fuel.
Variable U : UnicodeData.

(** [re_sub] gives [sub_loop] one step more than the text has characters;
    that is enough: more steps give the same result. *)
Lemma sub_loop_fuel fl r repl : forall f1 f2 bef aft,
  (length aft < f1)%nat -> (length aft < f2)%nat ->
  sub_loop U f1 fl r repl bef aft = sub_loop U f2 fl r repl bef aft.
Proof.
  induction f1 as [|f1 IH]; intros f2 bef aft H1 H2; [lia|].
  destruct f2 as [|f2]; [lia|]. cbn [sub_loop].
  destruct (match_at U fl r bef aft) as [m|] eqn:Em.
  - apply match_at_span in Em. destruct Em as (_ & Hs & _).
    destruct (mt_text m) as [|x t] eqn:Et.
    + destruct aft as [|c rest]; [reflexivity|].
      do 2 f_equal. apply IH; simpl in *; lia.
    + f_equal. apply IH; rewrite Hs, length_app in *; simpl in *; lia.
  - destruct aft as [|c rest]; [reflexivity|].
    f_equal. apply IH; simpl in *; lia.
Qed.

Definition digits_value (ds : pystr) (acc : N) : N :=
  fold_left (fun a d => 10 * a + (d - 48)) ds acc.

Lemma decimal_digits_value : forall fuel n acc,
  (N.to_nat n < fuel)%nat ->
  exists ds, decimal_digits fuel n acc = ds ++ acc
             /\ Forall (fun d => 48 <= d <= 57) ds
             /\ forall a, digits_value ds a = a * 10 ^ N.of_nat (length ds) + n.
Proof.
  induction fuel as [|f IH]; intros n acc Hf; [lia|].
  cbn [decimal_digits].
  assert (Hmod : n mod 10 < 10) by (apply N.mod_lt; lia).
  assert (Hdm : n = 10 * (n / 10) + n mod 10) by (apply N.div_mod; lia).
  destruct (n / 10 =? 0) eqn:E.
  - apply N.eqb_eq in E. exists [48 + n mod 10]. split; [reflexivity|]. split.
    + constructor; [lia | constructor].
    + intros a. unfold digits_value. cbn [fold_left length]. 
      change (N.of_nat 1) with 1. rewrite N.pow_1_r. lia.
  - apply N.eqb_neq in E.
    assert (Hlt : (N.to_nat (n / 10) < f)%nat).
    { assert (Hq : n / 10 < n).
      { apply N.div_lt; [|reflexivity]. destruct n; [discriminate E0 || (exfalso; apply E; reflexivity) | reflexivity]. }
      clear - Hq Hf. set (q := n / 10) in *. clearbody q. lia. }
    destruct (IH (n / 10) ((48 + n mod 10) :: acc) Hlt) as (ds & Hd & Hall & Hv).
    exists (ds ++ [48 + n mod 10]). split; [rewrite Hd, <- app_assoc; reflexivity|]. split.
    + apply Forall_app. split; [exact Hall|]. constructor; [clear - Hmod; set (m := n mod 10) in *; clearbody m; lia | constructor].
    + intros a. unfold digits_value in *. rewrite fold_left_app. cbn [fold_left].
      rewrite Hv, length_app. cbn [length]. rewrite Nat.add_1_r, Nat2N.inj_succ, N.pow_succ_r'.
      clear - Hmod Hdm. set (q := n / 10) in *. set (m := n mod 10) in *.
      set (p := 10 ^ N.of_nat (length ds)). clearbody q m p. nia.
Qed.

Lemma int_of_digits_value : forall ds a,
  Forall (fun d => 48 <= d <= 57) ds ->
  int_of_digits U ds a = Some (digits_value ds a).
Proof.
  induction ds as [|d ds IH]; intros a H; [reflexivity|].
  inversion H as [|? ? Hd Hds]; subst. cbn [int_of_digits].
  rewrite (@ascii_digit_value U d) by lia. apply IH. exact Hds.
Qed.

(** [int(str(n)) == n]: the numeral written for the page count reads back
    as the page count. *)
Lemma int_of_str_of_nat (n : nat) : int_of_digits U (str_of_nat n) 0 = Some (N.of_nat n).
Proof.
  unfold str_of_nat.
  assert (Hf : (N.to_nat (N.of_nat n) < S n)%nat) by lia.
  destruct (@decimal_digits_value (S n) (N.of_nat n) [] Hf) as (ds & -> & Hall & Hv).
  rewrite app_nil_r, int_of_digits_value by exact Hall. rewrite Hv. reflexivity.
Qed.

(** The Number of Pages of a document that opens with at least one page is
    the decimal numeral of its page count: it reads back as that number. *)
Theorem number_of_pages_is_the_page_count (pdf : pdf_file) (use_ocr : bool)
        (doc : document) (md : option pydict) :
  fitz_open pdf = Ok doc ->
  doc_metadata doc = Ok md ->
  (0 < page_count doc)%nat ->
  exists v, field "Number of Pages" (parse_pdf U pdf use_ocr) = Some v
            /\ int_of_digits U v 0 = Some (N.of_nat (page_count doc)).
Proof.
  intros Ho Hm Hp. unfold parse_pdf, parse_pdf_try, bind. rewrite Ho, Hm. cbv zeta.
  match goal with |- context [_find_people ?u ?t ?a] =>
    destruct (_find_people u t a) as [author editor] end.
  cbn [field String.eqb Ascii.eqb Bool.eqb].
  destruct (page_count doc) as [|n] eqn:E; [lia|].
  eexists. split; [reflexivity|]. apply int_of_str_of_nat.
Qed.

End Fuel.

Lemma number_of_pages_is_the_page_count_witness :
  exists v, field "Number of Pages" (parse_pdf ascii_only scanned_pdf_without_ocr false) = Some v
            /\ int_of_digits ascii_only v 0 = Some 3.
Proof.
  apply (@number_of_pages_is_the_page_count ascii_only scanned_pdf_without_ocr false
           three_page_document None).
  - reflexivity.
  - reflexivity.
  - unfold page_count. simpl. lia.
Defined.

(** ** YearExtractor: no year is missed *)

Section YearComplete.
Variable U : UnicodeData.

(** Where the cursor of a state is. *)
Definition position (s : mstate) : pystr * pystr := (m_before s, m_after s).

Lemma rep_position ok : forall aft lo hi bef g g',
  map position (rep ok lo hi bef aft g) = map position (rep ok lo hi bef aft g').
Proof.
  induction aft as [|c r IH]; intros lo hi bef g g'.
  - destruct hi as [[|h]|], lo; reflexivity.
  - cbn [rep]. destruct hi as [[|h]|].
    + destruct lo; reflexivity.
    + destruct (ok c); [|destruct lo; reflexivity].
      rewrite !map_app. rewrite (IH (pred lo) (option_map pred (Some (S h))) (c :: bef) g g').
      destruct lo; reflexivity.
    + destruct (ok c); [|destruct lo; reflexivity].
      rewrite !map_app. rewrite (IH (pred lo) (option_map pred None) (c :: bef) g g').
      destruct lo; reflexivity.
Qed.

Lemma flat_map_position (f : mstate -> list mstate) :
  (forall s s', position s = position s' -> map position (f s) = map position (f s')) ->
  forall l l', map position l = map position l' ->
               map position (flat_map f l) = map position (flat_map f l').
Proof.
  intros Hf. induction l as [|x l IH]; intros [|y l'] H; simpl in H; try discriminate.
  - reflexivity.
  - injection H as Hb Ha Hl.
    assert (Hxy : position x = position y) by (unfold position; rewrite Hb, Ha; reflexivity).
    simpl. rewrite !map_app. rewrite (Hf x y Hxy), (IH l' Hl). reflexivity.
Qed.

(** The positions a pattern reaches do not depend on the groups captured
    before. *)
Lemma run_position fl : forall r s s',
  position s = position s' ->
  map position (run U fl r s) = map position (run U fl r s').
Proof.
  assert (Hguard : forall (b : mstate -> bool) s s',
            position s = position s' -> b s = b s' ->
            map position (guard (b s) s) = map position (guard (b s') s')).
  { intros b s s' Hp Hb. rewrite Hb. destruct (b s'); simpl; [rewrite Hp|]; reflexivity. }
  induction r as [|a|a lo hi|r1 IH1 r2 IH2|r1 IH1 r2 IH2|i r IH| | | |a|a]; intros s s' Hp;
    pose proof Hp as Hp'; unfold position in Hp'; injection Hp' as Hb Ha.
  - simpl. rewrite Hp. reflexivity.
  - cbn [run]. rewrite Ha. destruct (m_after s') as [|c rest]; [reflexivity|].
    destruct (atom_ok U fl a c); simpl; [|reflexivity].
    unfold position. simpl. rewrite Hb. reflexivity.
  - cbn [run]. rewrite Ha, Hb. apply rep_position.
  - cbn [run]. apply flat_map_position; [exact (IH2) | apply IH1; exact Hp].
  - cbn [run]. rewrite !map_app, (IH1 _ _ Hp), (IH2 _ _ Hp). reflexivity.
  - cbn [run]. rewrite !map_map.
    transitivity (map position (run U fl r s)); [apply map_ext; intros x; reflexivity|].
    rewrite (IH _ _ Hp). apply map_ext. intros x. reflexivity.
  - cbn [run]. apply (Hguard (fun s => xorb (word_before U s) (word_after U s))); [exact Hp|].
    unfold word_before, word_after. rewrite Ha, Hb. reflexivity.
  - cbn [run].
    apply (Hguard (fun s => match m_before s with [] => true | _ => false end)); [exact Hp|].
    rewrite Hb. reflexivity.
  - cbn [run].
    apply (Hguard (fun s => match m_after s with [] => true | [10] => true | _ => false end));
      [exact Hp|].
    rewrite Ha. reflexivity.
  - cbn [run].
    apply (Hguard (fun s => match m_before s with
                            | c :: _ => negb (atom_ok U fl a c) | [] => true end));
      [exact Hp|].
    rewrite Hb. reflexivity.
  - cbn [run].
    apply (Hguard (fun s => match m_after s with
                            | c :: _ => negb (atom_ok U fl a c) | [] => true end));
      [exact Hp|].
    rewrite Ha. reflexivity.
Qed.

Lemma rep_ext ok1 ok2 : (forall c, ok1 c = ok2 c) ->
  forall aft lo hi bef g, rep ok1 lo hi bef aft g = rep ok2 lo hi bef aft g.
Proof.
  intros H. induction aft as [|c r IH]; intros lo hi bef g; [reflexivity|].
  cbn [rep]. rewrite H, !IH. reflexivity.
Qed.

(** A pattern whose atoms match the same characters under both sets of
    flags. *)
Fixpoint same_under (fl1 fl2 : flags) (r : regex) : Prop :=
  match r with
  | One a | Rep a _ _ | NotBehind a | NotAhead a =>
      forall c, atom_ok U fl1 a c = atom_ok U fl2 a c
  | Seq r1 r2 | Alt r1 r2 => same_under fl1 fl2 r1 /\ same_under fl1 fl2 r2
  | Group _ r1 => same_under fl1 fl2 r1
  | _ => True
  end.

Lemma run_same_under fl1 fl2 : forall r,
  same_under fl1 fl2 r -> forall s, run U fl1 r s = run U fl2 r s.
Proof.
  induction r as [|a|a lo hi|r1 IH1 r2 IH2|r1 IH1 r2 IH2|i r IH| | | |a|a];
    intros H s; cbn [run same_under] in *; try reflexivity.
  - destruct (m_after s); [reflexivity|]. rewrite H. reflexivity.
  - apply rep_ext. exact H.
  - destruct H as [H1 H2]. rewrite (IH1 H1). apply flat_map_ext. intros x. apply IH2. exact H2.
  - destruct H as [H1 H2]. rewrite (IH1 H1), (IH2 H2). reflexivity.
  - rewrite (IH H). reflexivity.
  - destruct (m_before s); [reflexivity|]. rewrite H. reflexivity.
  - destruct (m_after s); [reflexivity|]. rewrite H. reflexivity.
Qed.

Lemma ci_eq_digit (p c : N) :
  p < 128 -> ascii_upper p = false -> ascii_lower p = false -> ci_eq U p c = (p =? c).
Proof.
  unfold ci_eq. intros Hp Hu Hl. apply N.ltb_lt in Hp. rewrite Hp, Hu, Hl. simpl.
  apply orb_false_r.
Qed.

Lemma year_pat_same_under : same_under re_I_S no_flags year_pat.
Proof.
  let r := eval cbv in year_pat in change year_pat with r.
  cbn [same_under]. repeat split; intros c; try reflexivity;
    cbn [atom_ok lit_ok ignorecase re_I_S no_flags]; apply ci_eq_digit; reflexivity.
Qed.

(** Where a marker pattern matches, the bare year pattern matches too. *)
Lemma term_match_has_year (term text : pystr) (m : rmatch) :
  re_search U re_I_S (term_pat term) text = Some m ->
  re_search U no_flags year_pat text <> None.
Proof.
  intros H Hnone. unfold re_search in *.
  apply search_from_some in H. destruct H as (pre & post & -> & H).
  apply match_at_some in H. destruct H as (s' & Hin & _).
  unfold term_pat in Hin. cbn [seq] in Hin.
  apply in_run_seq in Hin. destruct Hin as (m1 & H1 & Hin).
  apply in_run_seq in Hin. destruct Hin as (m2 & H2 & H3).
  apply run_span in H1. destruct H1 as (t1 & Ha1 & Hb1 & _).
  apply run_span in H2. destruct H2 as (t2 & Ha2 & Hb2 & _).
  cbn [start_state m_after m_before] in Ha1, Hb1.
  pose proof (@search_from_none U no_flags year_pat _ _ Hnone
                (pre ++ t1 ++ t2) (m_after m2)) as Hn.
  rewrite Ha1, Ha2, <- !app_assoc in Hn. specialize (Hn eq_refl).
  unfold match_at in Hn.
  destruct (run U no_flags year_pat
              (start_state (rev (pre ++ t1 ++ t2) ++ []) (m_after m2))) as [|x l] eqn:E;
    [|discriminate].
  rewrite <- (@run_same_under re_I_S no_flags year_pat year_pat_same_under) in E.
  assert (Hp : position m2 = position (start_state (rev (pre ++ t1 ++ t2) ++ []) (m_after m2))).
  { unfold position, start_state. cbn [m_before m_after].
    rewrite Hb2, Hb1, !rev_app_distr, !app_nil_r, <- !app_assoc. reflexivity. }
  pose proof (@run_position re_I_S year_pat _ _ Hp) as Hpos. rewrite E in Hpos.
  destruct (run U re_I_S year_pat m2); [destruct H3 | discriminate Hpos].
Qed.

Lemma year_near_terms_none (text : pystr) :
  re_search U no_flags year_pat text = None ->
  forall terms, year_near_terms U terms text = None.
Proof.
  intros Hnone. induction terms as [|term rest IH]; [reflexivity|].
  cbn [year_near_terms].
  destruct (re_search U re_I_S (term_pat term) text) as [m|] eqn:Em; [|exact IH].
  exfalso. exact (@term_match_has_year _ _ _ Em Hnone).
Qed.

(** No year is missed: [_find_year] answers ["Unknown"] exactly when the
    year pattern (four digits, 1500 to 2035, no digit on either side)
    matches nowhere in the text. *)
Theorem find_year_unknown_iff_no_year (text : pystr) :
  _find_year U text = UNKNOWN <-> re_search U no_flags year_pat text = None.
Proof.
  assert (Htok : forall y, year_token U y -> y <> UNKNOWN).
  { intros y [Hl _] ->. discriminate Hl. }
  unfold _find_year. split.
  - destruct (year_near_terms U year_terms text) as [y|] eqn:E.
    + intros Hy. exfalso. apply (Htok y); [|exact Hy].
      apply (@year_near_terms_token U _ _ _ E).
    + destruct (re_search U no_flags year_pat text) as [m|] eqn:Em; [|reflexivity].
      intros Hy. exfalso. destruct (@search_year_token U _ _ Em) as [Ht Hg].
      rewrite Hg in Hy. exact (Htok _ Ht Hy).
  - intros Hnone. rewrite (@year_near_terms_none text Hnone year_terms), Hnone. reflexivity.
Qed.

End YearComplete.

(** ** PublisherExtractor: the labelled candidate is cut at the contact details *)

Section PublisherCut.
Variable U : UnicodeData.

Definition is_separator (c : N) : bool := (c =? ch ";") || (c =? ch "|") || (c =? 8226).

(** [re.search] returns the leftmost match: no earlier position matches. *)
Lemma search_from_leftmost fl r : forall aft bef m,
  search_from U fl r bef aft = Some m ->
  exists pre post,
    aft = pre ++ post /\ mt_before m = rev pre ++ bef
    /\ forall p1 c p2, pre = p1 ++ c :: p2 ->
                       match_at U fl r (rev p1 ++ bef) (c :: p2 ++ post) = None.
Proof.
  induction aft as [|x aft IH]; intros bef m H; cbn [search_from] in H.
  - destruct (match_at U fl r bef []) as [m0|] eqn:E; [|discriminate].
    injection H as <-. apply match_at_span in E. destruct E as (Hb & _).
    exists [], []. repeat split; auto. intros [|? ?] ? ? Hp; discriminate Hp.
  - destruct (match_at U fl r bef (x :: aft)) as [m0|] eqn:E.
    + injection H as <-. apply match_at_span in E. destruct E as (Hb & _).
      exists [], (x :: aft). repeat split; auto. intros [|? ?] ? ? Hp; discriminate Hp.
    + destruct (IH _ _ H) as (pre & post & -> & Hb & Hleft).
      exists (x :: pre), post. split; [reflexivity|]. split.
      * rewrite Hb. simpl. rewrite <- app_assoc. reflexivity.
      * intros [|y p1] c p2 Hp; simpl in Hp; injection Hp as -> ->.
        -- simpl. exact E.
        -- simpl. rewrite <- app_assoc. simpl. exact (Hleft p1 c p2 eq_refl).
Qed.

Lemma contact_pat_at_separator (bef rest : pystr) (c : N) :
  is_separator c = true -> match_at U no_flags contact_pat bef (c :: rest) <> None.
Proof.
  intros Hc. unfold match_at, contact_pat. cbn [alt run start_state m_after m_before m_groups].
  assert (Hok : atom_ok U no_flags (InSet [CChar (ch ";"); CChar (ch "|"); CChar 8226]) c = true).
  { unfold is_separator in Hc. cbn [atom_ok existsb citem_ok lit_ok ignorecase no_flags].
    rewrite orb_false_r. rewrite (N.eqb_sym (ch ";")), (N.eqb_sym (ch "|")), (N.eqb_sym 8226).
    rewrite orb_assoc. exact Hc. }
  rewrite Hok. cbn [guard app]. discriminate.
Qed.

Lemma split_first_no_separator (t : pystr) (c : N) :
  In c (split_first U no_flags contact_pat t) -> is_separator c = false.
Proof.
  unfold split_first, re_search. intros Hin.
  destruct (is_separator c) eqn:Hc; [exfalso|reflexivity].
  destruct (search_from U no_flags contact_pat [] t) as [m|] eqn:E.
  - apply search_from_leftmost in E. destruct E as (pre & post & -> & Hb & Hleft).
    rewrite Hb, app_nil_r, rev_involutive in Hin.
    apply in_split in Hin. destruct Hin as (p1 & p2 & ->).
    specialize (Hleft p1 c p2 eq_refl).
    exact (contact_pat_at_separator _ _ c Hc Hleft).
  - apply in_split in Hin. destruct Hin as (p1 & p2 & ->).
    pose proof (@search_from_none U no_flags contact_pat _ _ E p1 (c :: p2) eq_refl) as Hn.
    exact (contact_pat_at_separator _ _ c Hc Hn).
Qed.

Lemma sub_loop_chars fl r repl (c : N) : forall fuel bef aft,
  In c (sub_loop U fuel fl r repl bef aft) -> In c repl \/ In c aft.
Proof.
  induction fuel as [|f IH]; intros bef aft H; cbn [sub_loop] in H; [right; exact H|].
  destruct (match_at U fl r bef aft) as [m|] eqn:Em.
  - apply match_at_span in Em. destruct Em as (_ & Hs & _).
    destruct (mt_text m) as [|x t].
    + destruct aft as [|y rest]; [left; exact H|].
      apply in_app_or in H. destruct H as [H | [<- | H]]; [left; exact H | right; left; reflexivity|].
      destruct (IH _ _ H) as [H1 | H1]; [left; exact H1 | right; right; exact H1].
    + apply in_app_or in H. destruct H as [H | H]; [left; exact H|].
      destruct (IH _ _ H) as [H1 | H1]; [left; exact H1|].
      right. rewrite Hs. apply in_or_app. right. exact H1.
  - destruct aft as [|y rest]; [destruct H|].
    destruct H as [<- | H]; [right; left; reflexivity|].
    destruct (IH _ _ H) as [H1 | H1]; [left; exact H1 | right; right; exact H1].
Qed.

Lemma strip_chars (s : pystr) (c : N) : In c (strip U s) -> In c s.
Proof.
  intros H. destruct (strip_inside U s) as (sp1 & sp2 & E). rewrite E.
  apply in_or_app. right. apply in_or_app. left. exact H.
Qed.

Lemma publisher_candidate_no_separator (m : rmatch) (c : N) :
  In c (publisher_candidate U m) -> is_separator c = false.
Proof.
  unfold publisher_candidate, re_sub. intros H.
  apply sub_loop_chars in H. destruct H as [H | H].
  - destruct H as [<- | []]. reflexivity.
  - apply strip_chars in H. apply split_first_no_separator in H. exact H.
Qed.

Lemma labelled_publisher_candidate : forall lines p,
  labelled_publisher U lines = Some p ->
  exists ln m, In ln lines /\ re_search U re_I publisher_pat ln = Some m
               /\ p = publisher_candidate U m.
Proof.
  induction lines as [|ln rest IH]; intros p H; cbn [labelled_publisher] in H; [discriminate|].
  destruct (re_search U re_I publisher_pat ln) as [m|] eqn:Em.
  - destruct (len_2_120 (publisher_candidate U m)).
    + injection H as <-. exists ln, m. repeat split; auto. left. reflexivity.
    + destruct (IH _ H) as (ln' & m' & Hin & Hrest). exists ln', m'. split; [right; exact Hin | exact Hrest].
  - destruct (IH _ H) as (ln' & m' & Hin & Hrest). exists ln', m'. split; [right; exact Hin | exact Hrest].
Qed.

(** When a labelled line gives the publisher, the name is cut where the
    contact details start: it holds no [;], no [|] and no bullet (U+2022),
    and no whitespace character in it is followed by another. *)
Theorem labelled_publisher_is_cut (text p : pystr) :
  labelled_publisher U (splitlines text) = Some p ->
  _find_publisher U text = p
  /\ (forall c, In c p -> c <> ch ";" /\ c <> ch "|" /\ c <> 8226)
  /\ (forall a c1 c2 b, p = a ++ c1 :: c2 :: b ->
                        isspace U c1 = true -> isspace U c2 = false).
Proof.
  intros H. split; [unfold _find_publisher; rewrite H; reflexivity|].
  apply labelled_publisher_candidate in H. destruct H as (ln & m & _ & _ & ->). split.
  - intros c Hc. apply publisher_candidate_no_separator in Hc.
    unfold is_separator in Hc. apply orb_false_iff in Hc. destruct Hc as [Hc H3].
    apply orb_false_iff in Hc. destruct Hc as [H1 H2].
    apply N.eqb_neq in H1, H2, H3. auto.
  - unfold publisher_candidate, re_sub.
    match goal with |- context [sub_loop U (S (length ?t)) _ _ _ [] ?t] =>
      apply (proj1 (@sub_spaces_single_spaced U (S (length t)) [] t (Nat.lt_succ_diag_r _)))
    end.
Qed.

End PublisherCut.

Lemma labelled_publisher_is_cut_witness :
  _find_publisher ascii_only (py "Publisher: Acme  Press; Tel: 555")
  = py "Acme Press".
Proof.
  destruct (@labelled_publisher_is_cut ascii_only
              (py "Publisher: Acme  Press; Tel: 555") (py "Acme Press")) as [H _].
  - vm_compute. reflexivity.
  - exact H.
Defined.

(** ** PersonExtractor: the text before the metadata *)

Section TextFirst.
Variable U : UnicodeData.

(** An author named in the text beats the embedded one: when the text alone
    gives an author, the embedded author changes nothing in the result. *)
Theorem text_author_beats_metadata (text : pystr) (meta_author : option pystr) :
  fst (_find_people U text None) <> UNKNOWN ->
  _find_people U text meta_author = _find_people U text None.
Proof.
  unfold _find_people.
  destruct (re_search U re_I author_pat text) as [m|]; [reflexivity|].
  intros H. exfalso. apply H.
  destruct (negb (pystr_eqb UNKNOWN UNKNOWN) && _); reflexivity.
Qed.

End TextFirst.

Lemma text_author_beats_metadata_witness :
  _find_people ascii_only people_example (Some (py "Someone Else"))
  = _find_people ascii_only people_example None.
Proof.
  apply text_author_beats_metadata. vm_compute. discriminate.
Defined.

(** ** PersonExtractor: [Edited by] as the only phrase *)

Section EditedByAlone.
Variable U : UnicodeData.






Section Phrase.
Variables pre name rest : pystr.
Hypothesis starts_word : forall p c, pre = p ++ [c] -> isword U c = false.
Hypothesis no_author_before : forall p1 c p2, pre = p1 ++ c :: p2 ->
  match_at U re_I author_pat (rev p1) (c :: p2 ++ py "Edited by " ++ name ++ rest) = None.
Hypothesis no_editor_before : forall p1 c p2, pre = p1 ++ c :: p2 ->
  match_at U re_I editor_pat (rev p1) (c :: p2 ++ py "Edited by " ++ name ++ rest) = None.
Hypothesis name_starts : exists c r, name = c :: r /\ isspace U c = false.
Hypothesis name_chars : forall c, In c name -> c <> 10 /\ c <> ch ",".
Hypothesis name_ends : rest = [] \/ exists c r, rest = c :: r /\ (c = 10 \/ c = ch ",").




End Phrase.


End EditedByAlone.


(** ** NameNormalizer: cleaning twice *)

(** C5, as stated, fails: ["a,;"] is cleaned to ["a,"] (one separator is
    removed, the one at the end), and ["a,"] to ["a"]. *)
Lemma clean_name_not_idempotent :
  _clean_name ascii_only (py "a,;") = py "a,"
  /\ _clean_name ascii_only (_clean_name ascii_only (py "a,;")) = py "a"
  /\ _clean_name ascii_only (_clean_name ascii_only (py "a,;"))
     <> _clean_name ascii_only (py "a,;").
Proof.
  split; [vm_compute; reflexivity|]. split; [vm_compute; reflexivity|].
  vm_compute. discriminate.
Qed.

Section CleanTwice.
Variable U : UnicodeData.

(** Where the pattern matches nowhere, [re.sub] returns the text. *)
Lemma sub_loop_no_match fl r repl : forall fuel bef aft,
  (forall p1 p2, aft = p1 ++ p2 -> match_at U fl r (rev p1 ++ bef) p2 = None) ->
  sub_loop U fuel fl r repl bef aft = aft.
Proof.
  induction fuel as [|f IH]; intros bef aft H; [reflexivity|].
  cbn [sub_loop]. pose proof (H [] aft eq_refl) as H0. cbn [rev app] in H0. rewrite H0.
  destruct aft as [|c rest]; [reflexivity|].
  f_equal. apply IH. intros p1 p2 E. subst rest.
  specialize (H (c :: p1) p2 eq_refl). cbn [rev] in H. rewrite <- app_assoc in H. exact H.
Qed.

Lemma re_sub_no_match fl r repl (text : pystr) :
  re_search U fl r text = None -> re_sub U fl r repl text = text.
Proof.
  intros H. unfold re_sub. apply sub_loop_no_match.
  intros p1 p2 E. exact (@search_from_none U fl r _ _ H p1 p2 E).
Qed.

Lemma span_two ok (s : pystr) :
  (2 <= length (fst (span ok s)))%nat ->
  exists c1 c2 r, s = c1 :: c2 :: r /\ ok c1 = true /\ ok c2 = true.
Proof.
  intros H. pose proof (span_app ok s) as Happ. pose proof (span_run ok s) as Hrun.
  destruct (fst (span ok s)) as [|c1 [|c2 t]]; simpl in H; try lia.
  simpl in Hrun. apply andb_true_iff in Hrun. destruct Hrun as [H1 Hrun].
  apply andb_true_iff in Hrun. destruct Hrun as [H2 _].
  exists c1, c2, (t ++ snd (span ok s)). auto.
Qed.

Lemma single_spaced_no_run (s : pystr) :
  single_spaced U s -> re_sub U no_flags spaces_pat (py " ") s = s.
Proof.
  intros Hs. unfold re_sub. apply sub_loop_no_match. intros p1 p2 ->.
  pose proof (match_spaces U (rev p1 ++ []) p2) as Hm.
  destruct (2 <=? length (fst (span (isspace U) p2)))%nat eqn:E; [|exact Hm].
  exfalso. apply Nat.leb_le in E. destruct (span_two _ _ E) as (c1 & c2 & r & -> & H1 & H2).
  rewrite (Hs p1 c1 c2 r eq_refl H1) in H2. discriminate.
Qed.

(** The shape of a cleaned name, as a lemma to build on. *)
Lemma clean_name_shape (s : pystr) :
  _clean_name U s <> []
  /\ strip U (_clean_name U s) = _clean_name U s
  /\ single_spaced U (_clean_name U s).
Proof.
  unfold _clean_name.
  set (s2 := re_sub U re_I honorific_pat [] _).
  assert (Hx : single_spaced U (strip U (re_sub U no_flags spaces_pat (py " ") s2))).
  { apply single_spaced_strip. unfold re_sub.
    apply (@sub_spaces_single_spaced U (S (length s2)) [] s2). lia. }
  pose proof (strip_idempotent U (re_sub U no_flags spaces_pat (py " ") s2)) as Hi.
  destruct (strip U (re_sub U no_flags spaces_pat (py " ") s2)) as [|c r]; simpl or_else.
  - split; [discriminate|]. split; [reflexivity|].
    intros a c1 c2 b E H1. exfalso.
    assert (Hin : In c1 UNKNOWN).
    { rewrite E. apply in_or_app. right. left. reflexivity. }
    rewrite (@UNKNOWN_no_space U c1 Hin) in H1. discriminate.
  - split; [discriminate|]. split; [exact Hi | exact Hx].
Qed.

(** C5, amended.  Cleaning is idempotent on the names it has finished with:
    when the cleaned name ends in no comma or semicolon and holds no
    honorific (neither pattern of [_clean_name] matches in it), cleaning it
    again changes nothing. *)
Theorem clean_name_idempotent_when_settled (x : pystr) :
  re_search U no_flags trailing_sep_pat (_clean_name U x) = None ->
  re_search U re_I honorific_pat (_clean_name U x) = None ->
  _clean_name U (_clean_name U x) = _clean_name U x.
Proof.
  intros Ht Hh. destruct (clean_name_shape x) as (Hne & Hstrip & Hss).
  set (y := _clean_name U x) in *.
  unfold _clean_name at 1. rewrite Hstrip.
  rewrite (@re_sub_no_match no_flags trailing_sep_pat [] y Ht).
  rewrite (@re_sub_no_match re_I honorific_pat [] y Hh).
  rewrite (@single_spaced_no_run y Hss), Hstrip.
  destruct y; [contradiction Hne; reflexivity | reflexivity].
Qed.

End CleanTwice.

Lemma clean_name_idempotent_when_settled_witness :
  _clean_name ascii_only (_clean_name ascii_only (py "Dr. Jane  Roe,"))
  = _clean_name ascii_only (py "Dr. Jane  Roe,").
Proof.
  apply clean_name_idempotent_when_settled; vm_compute; reflexivity.
Defined.

(** ** CatalogBuilder: the loop never aborts *)

Section CatalogLoop.
Variable U : UnicodeData.




End CatalogLoop.
